(** * Envoy substitution formatter: format parser, flat and structured formatters

    Shallow embedding of [source/common/formatter/substitution_formatter.h]
    (namespace [Envoy::Formatter]) together with the command parsers of
    [test/common/formatter/command_extension.cc], followed by the properties
    of the parser and of the two evaluators. *)

From Stdlib Require Import String Ascii List Arith NArith ZArith Lia Bool DecimalString.
From Stdlib Require Import Sorted OrderedTypeEx.
Import ListNotations.

Set Warnings "-register-all".

Local Open Scope string_scope.
Local Open Scope list_scope.
Local Open Scope nat_scope.

(** ** Strings as [std::string] *)

(** [format.size()]. *)
Definition size (s : string) : nat := String.length s.

(** [format[pos]]; reading at [format.size()] gives the terminating null
    character. *)
Definition char_at (s : string) (pos : nat) : ascii :=
  match String.get pos s with
  | Some c => c
  | None => Ascii.zero
  end.

(** [format.substr(pos)]: the suffix starting at [pos]. *)
Fixpoint substr (s : string) (pos : nat) {struct pos} : string :=
  match pos with
  | O => s
  | S p => match s with
           | EmptyString => EmptyString
           | String _ t => substr t p
           end
  end.

(** [fmt::format("{}", pos)] for an unsigned integer. *)
Definition decimal (n : nat) : string := NilEmpty.string_of_uint (Nat.to_uint n).

(** ** Exceptions *)

(** A call either returns or throws an [EnvoyException] carrying its
    [what()] message. *)
Inductive Outcome (A : Type) : Type :=
| Returns (a : A)
| Throws (what : string).
Arguments Returns {A} a.
Arguments Throws {A} what.

Definition bind {A B : Type} (r : Outcome A) (k : A -> Outcome B) : Outcome B :=
  match r with
  | Returns a => k a
  | Throws e => Throws e
  end.

Notation "x <- r ;; k" := (bind r (fun x => k))
  (at level 61, r at next level, right associativity).

(** ** The command regex *)

(** The source text of [command_w_args_regex]: a command name, an optional
    parenthesised subcommand and an optional length, between two percent
    signs. The matcher below follows it group by group. *)
Definition command_w_args_regex : string :=
  "^%((?:[A-Z]|[0-9]|_)+)(?:\(([^\)]*)\))?(?::([0-9]+))?%".

Definition between (lo hi : nat) (c : ascii) : bool :=
  (lo <=? nat_of_ascii c) && (nat_of_ascii c <=? hi).

(** The class of the command group: [A-Z], [0-9] or an underscore. *)
Definition is_command_char (c : ascii) : bool :=
  between 65 90 c || between 48 57 c || Ascii.eqb c "_".

(** The class of the subcommand group: anything but a closing parenthesis. *)
Definition is_subcommand_char (c : ascii) : bool := negb (Ascii.eqb c ")").

(** The class of the length group: [0-9]. *)
Definition is_digit (c : ascii) : bool := between 48 57 c.

(** Greedy repetition of a character class: the longest prefix of [s] made
    of characters in the class, and what follows it. *)
Fixpoint span (p : ascii -> bool) (s : string) : string * string :=
  match s with
  | EmptyString => (EmptyString, EmptyString)
  | String c t =>
      if p c then let (a, b) := span p t in (String c a, b)
      else (EmptyString, s)
  end.

(** [std::smatch]: [str0] is the whole match, [str1]..[str3] the capture
    groups; a group that did not take part in the match reads as the empty
    string. *)
Record smatch : Type := mk_smatch {
  str0 : string;
  str1 : string;
  str2 : string;
  str3 : string
}.

(** The optional subcommand group: the text it consumed, its capture and the
    rest of the input. When the closing parenthesis is missing the group
    matches nothing. *)
Definition match_subcommand (s : string) : string * string * string :=
  match s with
  | String "("%char t =>
      let (sub, r) := span is_subcommand_char t in
      match r with
      | String ")"%char r' => (("(" ++ sub ++ ")")%string, sub, r')
      | _ => ("", "", s)
      end
  | _ => ("", "", s)
  end.

(** The optional length group: a colon and one or more digits. *)
Definition match_length (s : string) : string * string * string :=
  match s with
  | String ":"%char t =>
      let (digits, r) := span is_digit t in
      match digits with
      | EmptyString => ("", "", s)
      | _ => ((":" ++ digits)%string, digits, r)
      end
  | _ => ("", "", s)
  end.

(** [std::regex_search(search_space, m, command_w_args_regex)]. The regex is
    anchored at the start of the search space; every repetition is followed
    by a character outside its class, so the greedy choice is the only one
    that can match. *)
Definition regex_search (search_space : string) : option smatch :=
  match search_space with
  | String "%"%char t =>
      let (command, r1) := span is_command_char t in
      match command with
      | EmptyString => None
      | _ =>
          let '(sub_text, subcommand, r2) := match_subcommand r1 in
          let '(len_text, len, r3) := match_length r2 in
          match r3 with
          | String "%"%char _ =>
              Some (mk_smatch ("%" ++ command ++ sub_text ++ len_text ++ "%")%string
                              command subcommand len)
          | _ => None
          end
      end
  | _ => None
  end.

(** [absl::SimpleAtoi(str, &length_value)] with [size_t length_value]: the
    decimal value, refused when it does not fit 64 bits. *)
Fixpoint decimal_value (s : string) (acc : N) : option N :=
  match s with
  | EmptyString => Some acc
  | String c t =>
      if is_digit c
      then decimal_value t (10 * acc + (N_of_ascii c - 48))%N
      else None
  end.

Definition SIZE_MAX : N := 18446744073709551615%N.

Definition SimpleAtoi (s : string) : option N :=
  match s with
  | EmptyString => None
  | _ => match decimal_value s 0%N with
         | Some v => if (v <=? SIZE_MAX)%N then Some v else None
         | None => None
         end
  end.

(** ** Values and providers *)

(** [ProtobufWkt::Value]; [number] stands for [double]. The fields of a
    [ProtobufWkt::Struct] are kept as an association list in the order of
    insertion; the map behind them is unordered, so the order of the list
    stands for no order of the keys. *)
Inductive Value (number : Type) : Type :=
| NullValue
| NumberValue (n : number)
| StringValue (s : string)
| BoolValue (b : bool)
| StructValue (fields : list (string * Value number))
| ListValue (values : list (Value number)).
Arguments NullValue {number}.
Arguments NumberValue {number} n.
Arguments StringValue {number} s.
Arguments BoolValue {number} b.
Arguments StructValue {number} fields.
Arguments ListValue {number} values.

(** What the header takes from elsewhere: the formatter context and stream
    info handed to every provider, [double] and its textual form, the
    providers that command parsers build, and the lookups behind
    [StreamInfoFormatterBase]. *)
Class Externals : Type := {
  FormatterContext : Type;
  StreamInfo : Type;
  number : Type;
  number_text : number -> string;
  Extension : Type;
  extension_text : Extension -> FormatterContext -> StreamInfo -> option string;
  extension_value : Extension -> FormatterContext -> StreamInfo -> Value number;
  stream_info_text :
    string -> string -> option N -> FormatterContext -> StreamInfo -> option string;
  stream_info_value :
    string -> string -> option N -> FormatterContext -> StreamInfo -> Value number
}.

Section Providers.
Context {E : Externals}.

(** [ProtobufWkt::Struct]. *)
Definition Struct : Type := list (string * Value number).

(** [value.kind_case() == ProtobufWkt::Value::kNullValue]. *)
Definition is_null (v : Value number) : bool :=
  match v with
  | NullValue => true
  | _ => false
  end.

(** [ValueUtil::optionalStringValue]. *)
Definition optionalStringValue (str : option string) : Value number :=
  match str with
  | Some s => StringValue s
  | None => NullValue
  end.

(** [value.struct_value()]: the default (empty) struct unless the value holds
    one. *)
Definition struct_value (v : Value number) : Struct :=
  match v with
  | StructValue fields => fields
  | _ => []
  end.

(** Assignment through [operator[]] on the fields of a struct: overwrite the
    entry for [key] or add one. *)
Fixpoint set_field (key : string) (value : Value number) (fields : Struct) : Struct :=
  match fields with
  | [] => [(key, value)]
  | (k, v) :: rest =>
      if String.eqb k key then (k, value) :: rest
      else (k, v) :: set_field key value rest
  end.

(** The provider classes reachable from [SubstitutionFormatParser::parse]. *)
Inductive FormatterProvider : Type :=
| PlainStringFormatter (str : string)
| PlainNumberFormatter (num : number)
| StreamInfoFormatter (command subcommand : string) (max_length : option N)
| ExtensionFormatter (impl : Extension).

(** Modelled from the spec: the bodies of [PlainStringFormatter] and
    [PlainNumberFormatter] are not in this header; a plain provider yields its
    literal, as text and as a typed value. *)
Definition formatWithContext (provider : FormatterProvider)
    (context : FormatterContext) (stream_info : StreamInfo) : option string :=
  match provider with
  | PlainStringFormatter str => Some str
  | PlainNumberFormatter num => Some (number_text num)
  | StreamInfoFormatter command subcommand max_length =>
      stream_info_text command subcommand max_length context stream_info
  | ExtensionFormatter impl => extension_text impl context stream_info
  end.

(** Modelled from the spec: the typed value of a plain provider is its
    literal, a string value or a number value. *)
Definition formatValueWithContext (provider : FormatterProvider)
    (context : FormatterContext) (stream_info : StreamInfo) : Value number :=
  match provider with
  | PlainStringFormatter str => StringValue str
  | PlainNumberFormatter num => NumberValue num
  | StreamInfoFormatter command subcommand max_length =>
      stream_info_value command subcommand max_length context stream_info
  | ExtensionFormatter impl => extension_value impl context stream_info
  end.

(** [CommandParser::parse(command, subcommand, max_length)]: the provider, or
    none for [nullptr]; [max_length] is passed by reference, so the parser
    hands back the value it leaves there. *)
Definition CommandParser : Type :=
  string -> string -> option N -> option FormatterProvider * option N.

(** [bit.value_or(empty_value)]. *)
Definition value_or (bit : option string) (empty_value : string) : string :=
  match bit with
  | Some s => s
  | None => empty_value
  end.

End Providers.

(** [BuiltInCommandParsersBase<FormatterContext>::commandParsers()]: the
    process-wide registry of built-in command parsers. *)
Class BuiltInCommandParsersBase {E : Externals} : Type := {
  commandParsers : list CommandParser
}.

(** [DefaultUnspecifiedValueStringView]. *)
Definition DefaultUnspecifiedValueStringView : string := "-".

(** ** [SubstitutionFormatParser] *)

Module SubstitutionFormatParser.
Section Parse.
Context {E : Externals} {B : BuiltInCommandParsersBase}.

(** The locals of [parse] that live across loop iterations. *)
Record state : Type := mk_state {
  pos : nat;
  current_token : string;
  formatters : list FormatterProvider
}.

(** One of the two [for (const auto& cmd : ...)] loops: ask each parser in
    turn and stop at the first that returns a formatter. *)
Fixpoint try_parsers (parsers : list CommandParser) (command subcommand : string)
    (max_length : option N) : option FormatterProvider * option N :=
  match parsers with
  | [] => (None, max_length)
  | cmd :: rest =>
      match cmd command subcommand max_length with
      | (Some formatter, max_length') => (Some formatter, max_length')
      | (None, max_length') => try_parsers rest command subcommand max_length'
      end
  end.

(** Lines 132-160: the built-in command parsers first, next the command
    parsers provided by the user, finally the context independent
    formatter. *)
Definition resolve (command_parsers : list CommandParser)
    (command subcommand : string) (max_length : option N) : FormatterProvider :=
  match try_parsers commandParsers command subcommand max_length with
  | (Some formatter, _) => formatter
  | (None, max_length1) =>
      match try_parsers command_parsers command subcommand max_length1 with
      | (Some formatter, _) => formatter
      | (None, max_length2) => StreamInfoFormatter command subcommand max_length2
      end
  end.

(** Lines 119-127: the optional length, checked to be an integer. *)
Definition parse_max_length (m : smatch) : Outcome (option N) :=
  if String.length (str3 m) =? 0 then Returns None
  else match SimpleAtoi (str3 m) with
       | Some length_value => Returns (Some length_value)
       | None => Throws ("Length must be an integer, given: " ++ str3 m)
       end.

(** Lines 100-104: the pending literal becomes a plain string formatter. *)
Definition flush (current_token : string) (formatters : list FormatterProvider)
    : list FormatterProvider :=
  match current_token with
  | EmptyString => formatters
  | _ => formatters ++ [PlainStringFormatter current_token]
  end.

Definition no_valid_command (format : string) (pos : nat) : string :=
  ("Incorrect configuration: " ++ format
   ++ ". Couldn't find valid command at position " ++ decimal pos)%string.

(** The body of the [for] loop at [pos < format.size()], with the [++pos]
    that follows it. *)
Definition iteration (format : string) (command_parsers : list CommandParser)
    (st : state) : Outcome state :=
  let pos := pos st in
  if negb (Ascii.eqb (char_at format pos) "%") then
    Returns (mk_state (S pos)
                      (current_token st ++ String (char_at format pos) "")
                      (formatters st))
  else if (pos + 1 <? size format) && Ascii.eqb (char_at format (pos + 1)) "%" then
    Returns (mk_state (S (pos + 1)) (current_token st ++ "%") (formatters st))
  else
    let formatters := flush (current_token st) (formatters st) in
    match regex_search (substr format pos) with
    | None => Throws (no_valid_command format pos)
    | Some m =>
        max_length <- parse_max_length m ;;
        let command_end_position := pos + String.length (str0 m) - 1 in
        Returns (mk_state (S command_end_position) ""
                          (formatters ++ [resolve command_parsers (str1 m) (str2 m) max_length]))
    end.

(** The [for] loop. Every iteration moves [pos] forward, so it runs at most
    [format.size()] times; [fuel] bounds the number of iterations. The bound
    [parse] passes is never what ends the loop, and a larger one changes
    nothing (lemmas [run_exits] and [loop_enough]). *)
Fixpoint loop (fuel : nat) (format : string) (command_parsers : list CommandParser)
    (st : state) : Outcome state :=
  match fuel with
  | O => Returns st
  | S fuel' =>
      if pos st <? size format then
        st' <- iteration format command_parsers st ;;
        loop fuel' format command_parsers st'
      else Returns st
  end.

(** Lines 165-172. *)
Definition finish (format : string) (st : state) : list FormatterProvider :=
  if negb (String.length (current_token st) =? 0) || (size format =? 0)
  then formatters st ++ [PlainStringFormatter (current_token st)]
  else formatters st.

Definition parse (format : string) (command_parsers : list CommandParser)
    : Outcome (list FormatterProvider) :=
  st <- loop (size format) format command_parsers (mk_state 0 "" []) ;;
  Returns (finish format st).

End Parse.
End SubstitutionFormatParser.

(** ** [CommonFormatterBaseImpl]: the flat formatter *)

Module CommonFormatterBaseImpl.
Section Flat.
Context {E : Externals} {B : BuiltInCommandParsersBase}.

Record t : Type := mk {
  empty_value_string_ : string;
  providers_ : list FormatterProvider
}.

(** The constructor taking command parsers; the one without them passes the
    empty vector. *)
Definition make (format : string) (omit_empty_values : bool)
    (command_parsers : list CommandParser) : Outcome t :=
  providers <- SubstitutionFormatParser.parse format command_parsers ;;
  Returns (mk (if omit_empty_values then "" else DefaultUnspecifiedValueStringView)
              providers).

Definition formatWithContext (self : t) (context : FormatterContext)
    (stream_info : StreamInfo) : string :=
  fold_left
    (fun log_line provider =>
       let bit := formatWithContext provider context stream_info in
       (log_line ++ value_or bit (empty_value_string_ self))%string)
    (providers_ self) "".

End Flat.
End CommonFormatterBaseImpl.

(** ** [std::map<std::string, V>] *)

(** An ordered map as the list of its entries in key order. [emplace]
    inserts at the key's place and leaves the map alone when the key is
    there already. *)
Fixpoint emplace {V : Type} (key : string) (value : V) (m : list (string * V))
    : list (string * V) :=
  match m with
  | [] => [(key, value)]
  | (k, v) :: rest =>
      match String.compare key k with
      | Lt => (key, value) :: m
      | Eq => m
      | Gt => (k, v) :: emplace key value rest
      end
  end.

(** ** [StructFormatterBase]: the structured formatter *)

Module StructFormatterBase.
Section Structured.
Context {E : Externals} {B : BuiltInCommandParsersBase}.

(** [StructFormatValue]: a variant over a provider vector, a
    [StructFormatMapWrapper] and a [StructFormatListWrapper]. *)
Inductive StructFormatValue : Type :=
| Providers (providers : list FormatterProvider)
| StructFormatMapWrapper (value_ : list (string * StructFormatValue))
| StructFormatListWrapper (value_ : list StructFormatValue).

Definition StructFormatMap : Type := list (string * StructFormatValue).
Definition StructFormatList : Type := list StructFormatValue.

(** *** [FormatBuilder] *)

Definition toFormatStringValue (commands_ : list CommandParser)
    (string_format : string) : Outcome (list FormatterProvider) :=
  SubstitutionFormatParser.parse string_format commands_.

Definition toFormatNumberValue (value : number) : list FormatterProvider :=
  [PlainNumberFormatter value].

Definition unsupported_kind : string :=
  "Only string values, nested structs, list values and number values are supported in structured access log format.".

(** The loop of [toFormatMapValue] over [struct_format.fields()], given what
    the [switch] does with one value. *)
Fixpoint map_fields (convert : Value number -> Outcome StructFormatValue)
    (fields : Struct) (output : StructFormatMap) : Outcome StructFormatMap :=
  match fields with
  | [] => Returns output
  | (key, value) :: rest =>
      converted <- convert value ;;
      map_fields convert rest (emplace key converted output)
  end.

(** The loop of [toFormatListValue] over [list_value_format.values()]. *)
Fixpoint list_values (convert : Value number -> Outcome StructFormatValue)
    (values : list (Value number)) (output : StructFormatList)
    : Outcome StructFormatList :=
  match values with
  | [] => Returns output
  | value :: rest =>
      converted <- convert value ;;
      list_values convert rest (output ++ [converted])
  end.

(** The [switch (kind_case())] shared by the two loops. *)
Fixpoint convert (commands_ : list CommandParser) (value : Value number)
    : Outcome StructFormatValue :=
  match value with
  | StringValue string_value =>
      providers <- toFormatStringValue commands_ string_value ;;
      Returns (Providers providers)
  | StructValue fields =>
      output <- map_fields (convert commands_) fields [] ;;
      Returns (StructFormatMapWrapper output)
  | ListValue values =>
      output <- list_values (convert commands_) values [] ;;
      Returns (StructFormatListWrapper output)
  | NumberValue number_value =>
      Returns (Providers (toFormatNumberValue number_value))
  | _ => Throws unsupported_kind
  end.

Definition toFormatMapValue (commands_ : list CommandParser) (struct_format : Struct)
    : Outcome StructFormatMap :=
  map_fields (convert commands_) struct_format [].

Definition toFormatListValue (commands_ : list CommandParser)
    (list_value_format : list (Value number)) : Outcome StructFormatList :=
  list_values (convert commands_) list_value_format [].

(** *** The formatter *)

Record t : Type := mk {
  omit_empty_values_ : bool;
  preserve_types_ : bool;
  empty_value_ : string;
  struct_output_format_ : StructFormatMap
}.

Definition make (format_mapping : Struct) (preserve_types omit_empty_values : bool)
    (commands : list CommandParser) : Outcome t :=
  struct_output_format <- toFormatMapValue commands format_mapping ;;
  Returns (mk omit_empty_values preserve_types
              (if omit_empty_values then "" else DefaultUnspecifiedValueStringView)
              struct_output_format).

(** [ASSERT(!providers.empty())] is compiled out of release builds; an empty
    vector would fall through to the concatenation. *)
Definition providersCallback (self : t) (providers : list FormatterProvider)
    (context : FormatterContext) (stream_info : StreamInfo) : Value number :=
  match providers with
  | [provider] =>
      if preserve_types_ self then
        formatValueWithContext provider context stream_info
      else if omit_empty_values_ self then
        optionalStringValue (formatWithContext provider context stream_info)
      else
        let str := formatWithContext provider context stream_info in
        StringValue (value_or str (empty_value_ self))
  | _ =>
      StringValue
        (fold_left
           (fun str provider =>
              let bit := formatWithContext provider context stream_info in
              (str ++ value_or bit (empty_value_ self))%string)
           providers "")
  end.

Definition structFormatMapCallback (self : t)
    (visitor : StructFormatValue -> Value number) (format_map : StructFormatMap)
    : Value number :=
  let output :=
    fold_left
      (fun fields pair =>
         let value := visitor (snd pair) in
         if omit_empty_values_ self && is_null value then fields
         else set_field (fst pair) value fields)
      format_map [] in
  if omit_empty_values_ self && (List.length output =? 0) then NullValue
  else StructValue output.

Definition structFormatListCallback (self : t)
    (visitor : StructFormatValue -> Value number) (format_list : StructFormatList)
    : Value number :=
  ListValue
    (fold_left
       (fun output val =>
          let value := visitor val in
          if omit_empty_values_ self && is_null value then output
          else output ++ [value])
       format_list []).

(** [absl::visit(visitor, value)] with the [StructFormatMapVisitor] built in
    [formatWithContext]. *)
Fixpoint visit (self : t) (context : FormatterContext) (stream_info : StreamInfo)
    (value : StructFormatValue) : Value number :=
  match value with
  | Providers providers => providersCallback self providers context stream_info
  | StructFormatMapWrapper format_map =>
      structFormatMapCallback self (visit self context stream_info) format_map
  | StructFormatListWrapper format_list =>
      structFormatListCallback self (visit self context stream_info) format_list
  end.

Definition formatWithContext (self : t) (context : FormatterContext)
    (stream_info : StreamInfo) : Struct :=
  struct_value
    (structFormatMapCallback self (visit self context stream_info)
       (struct_output_format_ self)).

End Structured.
End StructFormatterBase.

(** ** The command parsers of [test/common/formatter/command_extension.cc] *)

Module CommandExtension.

Inductive TestProvider : Type :=
| TestFormatter
| AdditionalFormatter.

Definition text (p : TestProvider) : string :=
  match p with
  | TestFormatter => "TestFormatter"
  | AdditionalFormatter => "AdditionalFormatter"
  end.

(** A setting for the tests: integers for numbers, no formatter context, and
    a stream info that is a table from command names to their text. *)
#[local] Instance externals : Externals := {|
  FormatterContext := unit;
  StreamInfo := list (string * string);
  number := Z;
  number_text := fun z => NilEmpty.string_of_int (Z.to_int z);
  Extension := TestProvider;
  extension_text := fun p _ _ => Some (text p);
  extension_value := fun p _ _ => StringValue (text p);
  stream_info_text := fun command _ _ _ info =>
    option_map snd (find (fun entry => String.eqb (fst entry) command) info);
  stream_info_value := fun command _ _ _ info =>
    match find (fun entry => String.eqb (fst entry) command) info with
    | Some entry => StringValue (snd entry)
    | None => NullValue
    end
|}.

Definition TestCommandParser : CommandParser :=
  fun command _ max_length =>
    if String.eqb command "COMMAND_EXTENSION"
    then (Some (ExtensionFormatter TestFormatter), max_length)
    else (None, max_length).

Definition AdditionalCommandParser : CommandParser :=
  fun command _ max_length =>
    if String.eqb command "ADDITIONAL_EXTENSION"
    then (Some (ExtensionFormatter AdditionalFormatter), max_length)
    else (None, max_length).

(** A registry without built-in parsers, and one whose only built-in parser
    is [AdditionalCommandParser]. *)
Definition no_builtins : BuiltInCommandParsersBase := {| commandParsers := [] |}.

Definition additional_builtin : BuiltInCommandParsersBase :=
  {| commandParsers := [AdditionalCommandParser] |}.

(** Two structured formatters over the empty format: one that omits empty
    values, one that preserves types. *)
Definition omitting : StructFormatterBase.t :=
  StructFormatterBase.mk true false "" [].

Definition preserving : StructFormatterBase.t :=
  StructFormatterBase.mk false true "-" [].

End CommandExtension.

(** ** Notions the properties are stated with *)

(** The in-order concatenation of the providers' outputs. *)
Definition concatenation (bits : list string) : string :=
  fold_right String.append "" bits.

(** Every character of [s] is in the class [p]. *)
Fixpoint every (p : ascii -> bool) (s : string) : bool :=
  match s with
  | EmptyString => true
  | String c t => p c && every p t
  end.

Definition subcommand_text (subcommand : option string) : string :=
  match subcommand with
  | Some s => "(" ++ s ++ ")"
  | None => ""
  end.

Definition length_text (len : option string) : string :=
  match len with
  | Some digits => ":" ++ digits
  | None => ""
  end.

(** The command grammar [%NAME(SUBCOMMAND):LENGTH%] of the specification:
    a non-empty name over [A-Z], [0-9] and underscore, an optional
    subcommand without closing parenthesis, an optional non-empty decimal
    length. *)
Inductive command_token : string -> Prop :=
| command_token_intro (name : string) (subcommand len : option string) :
    name <> "" ->
    every is_command_char name = true ->
    (forall s, subcommand = Some s -> every is_subcommand_char s = true) ->
    (forall digits, len = Some digits ->
       digits <> "" /\ every is_digit digits = true) ->
    command_token
      ("%" ++ name ++ subcommand_text subcommand ++ length_text len ++ "%").

(** [renders placeholder format text]: [text] is the literal text of
    [format], a doubled percent sign read as one, with every command token
    replaced by [placeholder]. *)
Inductive renders (placeholder : string) : string -> string -> Prop :=
| renders_end : renders placeholder "" ""
| renders_literal (c : ascii) (format text : string) :
    c <> "%"%char ->
    renders placeholder format text ->
    renders placeholder (String c format) (String c text)
| renders_escape (format text : string) :
    renders placeholder format text ->
    renders placeholder ("%%" ++ format) ("%" ++ text)
| renders_command (token format text : string) :
    command_token token ->
    renders placeholder format text ->
    renders placeholder (token ++ format) (placeholder ++ text).

(** The states the loop of [parse] goes through on [format]. *)
Inductive scanned {E : Externals} {B : BuiltInCommandParsersBase}
    (format : string) (command_parsers : list CommandParser)
    : SubstitutionFormatParser.state -> Prop :=
| scanned_start :
    scanned format command_parsers (SubstitutionFormatParser.mk_state 0 "" [])
| scanned_next (st st' : SubstitutionFormatParser.state) :
    scanned format command_parsers st ->
    SubstitutionFormatParser.pos st < size format ->
    SubstitutionFormatParser.iteration format command_parsers st = Returns st' ->
    scanned format command_parsers st'.

(** Every scalar leaf of a compiled format holds at least one provider: the
    condition [providersCallback] asserts. *)
Fixpoint leaves_nonempty {E : Externals}
    (value : StructFormatterBase.StructFormatValue) : bool :=
  match value with
  | StructFormatterBase.Providers providers => negb (List.length providers =? 0)
  | StructFormatterBase.StructFormatMapWrapper format_map =>
      forallb (fun pair => leaves_nonempty (snd pair)) format_map
  | StructFormatterBase.StructFormatListWrapper format_list =>
      forallb leaves_nonempty format_list
  end.

(** A value other than the null marker. *)
Definition not_null {E : Externals} (value : Value number) : bool :=
  negb (is_null value).

(** The values the map and list callbacks keep. *)
Definition kept {E : Externals} (omit_empty_values : bool) (value : Value number)
    : bool :=
  negb (omit_empty_values && is_null value).

(** A compiled field with its value under a visitor. *)
Definition evaluated_field {E : Externals}
    (visitor : StructFormatterBase.StructFormatValue -> Value number)
    (pair : string * StructFormatterBase.StructFormatValue) : string * Value number :=
  (fst pair, visitor (snd pair)).

(** The text a provider contributes to a concatenation. *)
Definition bit {E : Externals} (context : FormatterContext) (stream_info : StreamInfo)
    (empty_value : string) (provider : FormatterProvider) : string :=
  value_or (formatWithContext provider context stream_info) empty_value.

(** The keys of a [std::map] come in strictly increasing order. *)
Definition key_lt (k1 k2 : string) : Prop := String.compare k1 k2 = Lt.

(** ** Formats as sequences of segments *)

(** How a literal text is written in a format: every percent sign doubled. *)
Fixpoint escape (text : string) : string :=
  match text with
  | EmptyString => EmptyString
  | String c t =>
      if Ascii.eqb c "%" then String "%" (String "%" (escape t))
      else String c (escape t)
  end.

(** A stretch of literal text, or a command with its optional subcommand and
    its optional length in decimal. *)
Inductive segment : Type :=
| Text (text : string)
| Command (name : string) (subcommand len : option string).

Definition token_text (name : string) (subcommand len : option string) : string :=
  "%" ++ name ++ subcommand_text subcommand ++ length_text len ++ "%".

Fixpoint unparse (segments : list segment) : string :=
  match segments with
  | [] => ""
  | Text text :: rest => escape text ++ unparse rest
  | Command name subcommand len :: rest =>
      token_text name subcommand len ++ unparse rest
  end.

(** The command follows the grammar of the regex. *)
Definition grammatical (name : string) (subcommand len : option string) : bool :=
  negb (String.eqb name "")
  && every is_command_char name
  && match subcommand with
     | Some s => every is_subcommand_char s
     | None => true
     end
  && match len with
     | Some digits => negb (String.eqb digits "") && every is_digit digits
     | None => true
     end.

(** What the captures of the regex read for an optional part. *)
Definition capture (part : option string) : string :=
  match part with
  | Some s => s
  | None => ""
  end.

(** A segment [parse] accepts: any text, or a grammatical command whose
    length, when there is one, fits [size_t]. *)
Definition accepted (s : segment) : bool :=
  match s with
  | Text _ => true
  | Command name subcommand len =>
      grammatical name subcommand len
      && match len with
         | Some digits => match SimpleAtoi digits with Some _ => true | None => false end
         | None => true
         end
  end.

(** The providers a sequence of segments stands for, [pending] being the
    literal text read so far: adjacent texts join into one plain string
    provider, an empty text gives none, a command gives what [resolve]
    returns for it. *)
Fixpoint plan {E : Externals} {B : BuiltInCommandParsersBase}
    (command_parsers : list CommandParser) (segments : list segment)
    (pending : string) : list FormatterProvider :=
  match segments with
  | [] => SubstitutionFormatParser.flush pending []
  | Text text :: rest => plan command_parsers rest (pending ++ text)
  | Command name subcommand len :: rest =>
      SubstitutionFormatParser.flush pending []
      ++ SubstitutionFormatParser.resolve command_parsers name (capture subcommand)
           match len with
           | Some digits => SimpleAtoi digits
           | None => None
           end
         :: plan command_parsers rest ""
  end.

(** A provider as [parse] builds them: a plain string with a non-empty
    literal, or what [resolve] returns for a command name over the command
    class, a subcommand without closing parenthesis and a length within
    [size_t]. *)
Definition built_by_parse {E : Externals} {B : BuiltInCommandParsersBase}
    (command_parsers : list CommandParser) (provider : FormatterProvider) : Prop :=
  (exists literal, literal <> "" /\ provider = PlainStringFormatter literal)
  \/ (exists command subcommand max_length,
        command <> ""
        /\ every is_command_char command = true
        /\ every is_subcommand_char subcommand = true
        /\ (forall v, max_length = Some v -> (v <= SIZE_MAX)%N)
        /\ provider
           = SubstitutionFormatParser.resolve command_parsers command subcommand
               max_length).

(** ** Structured formats and values by shape *)

Definition returns {A : Type} (r : Outcome A) : bool :=
  match r with
  | Returns _ => true
  | Throws _ => false
  end.

(** Every leaf of the format is a number or a string that [parse] accepts. *)
Fixpoint compilable {E : Externals} {B : BuiltInCommandParsersBase}
    (commands_ : list CommandParser) (value : Value number) : bool :=
  match value with
  | StringValue string_value =>
      returns (SubstitutionFormatParser.parse string_value commands_)
  | NumberValue _ => true
  | StructValue fields =>
      forallb (fun field => compilable commands_ (snd field)) fields
  | ListValue values => forallb (compilable commands_) values
  | _ => false
  end.

(** A value whose leaves are all strings. *)
Fixpoint only_strings {E : Externals} (value : Value number) : bool :=
  match value with
  | StringValue _ => true
  | StructValue fields => forallb (fun field => only_strings (snd field)) fields
  | ListValue values => forallb only_strings values
  | _ => false
  end.

(** A value of strings without any null marker and without any struct that
    has no field. *)
Fixpoint without_gaps {E : Externals} (value : Value number) : bool :=
  match value with
  | StringValue _ => true
  | StructValue fields =>
      negb (List.length fields =? 0)
      && forallb (fun field => without_gaps (snd field)) fields
  | ListValue values => forallb without_gaps values
  | _ => false
  end.

(** * Properties *)

(** ** Strings *)

Section StringFacts.

Lemma append_assoc (a b c : string) : ((a ++ b) ++ c = a ++ (b ++ c))%string.
Proof. induction a as [|x a IH]; simpl; [reflexivity | now rewrite IH]. Qed.

Lemma append_empty_r (a : string) : (a ++ "")%string = a.
Proof. induction a as [|x a IH]; simpl; [reflexivity | now rewrite IH]. Qed.

Lemma length_append (a b : string) :
  String.length (a ++ b) = String.length a + String.length b.
Proof. induction a as [|x a IH]; simpl; [reflexivity | now rewrite IH]. Qed.

Lemma append_nonempty (a : string) (c : ascii) (b : string) :
  (a ++ String c b)%string <> "".
Proof. destruct a; simpl; discriminate. Qed.

Lemma substr_beyond (s : string) (pos : nat) :
  size s <= pos -> substr s pos = "".
Proof.
  unfold size.
  revert s; induction pos as [|p IH]; intros [|c t] H; simpl in *;
    try reflexivity; try lia.
  apply IH. lia.
Qed.

Lemma substr_char_at (s : string) (pos : nat) :
  pos < size s -> substr s pos = String (char_at s pos) (substr s (S pos)).
Proof.
  unfold size.
  revert s; induction pos as [|p IH]; intros [|c t] H; simpl in *; try lia.
  - reflexivity.
  - rewrite IH by lia. unfold char_at. simpl. reflexivity.
Qed.

Lemma substr_substr (s : string) (a b : nat) :
  substr (substr s a) b = substr s (a + b).
Proof.
  revert s; induction a as [|a IH]; intros s; simpl; [reflexivity|].
  destruct s as [|c t]; [|apply IH].
  destruct b; reflexivity.
Qed.

Lemma substr_append (a b : string) : substr (a ++ b) (String.length a) = b.
Proof. induction a as [|x a IH]; simpl; [reflexivity | exact IH]. Qed.

Lemma substr_length (s : string) (pos : nat) :
  String.length (substr s pos) = size s - pos.
Proof.
  revert s; induction pos as [|p IH]; intros [|c t]; simpl; try reflexivity.
  apply IH.
Qed.

Lemma char_at_substr (s : string) (pos : nat) (c : ascii) (rest : string) :
  substr s pos = String c rest ->
  pos < size s /\ char_at s pos = c /\ substr s (S pos) = rest.
Proof.
  intros H.
  assert (Hlt : pos < size s).
  { destruct (Nat.lt_ge_cases pos (size s)) as [Hl|Hg]; [exact Hl|].
    rewrite (substr_beyond _ _ Hg) in H. discriminate. }
  rewrite (substr_char_at _ _ Hlt) in H. inversion H. auto.
Qed.

End StringFacts.

(** ** The command regex *)

Section RegexFacts.

Lemma span_spec (p : ascii -> bool) (s a b : string) :
  span p s = (a, b) -> s = (a ++ b)%string /\ every p a = true.
Proof.
  revert a b; induction s as [|c t IH]; intros a b H; simpl in H.
  - inversion H; subst. split; reflexivity.
  - destruct (p c) eqn:Hc.
    + destruct (span p t) as [a' b'] eqn:Hs. inversion H; subst.
      destruct (IH a' b eq_refl) as [-> Ha]. simpl. rewrite Hc, Ha. auto.
    + inversion H; subst. split; reflexivity.
Qed.

Lemma match_subcommand_spec (s text capture rest : string) :
  match_subcommand s = (text, capture, rest) ->
  s = (text ++ rest)%string /\
  exists subcommand,
    text = subcommand_text subcommand /\
    (forall x, subcommand = Some x -> every is_subcommand_char x = true).
Proof.
  unfold match_subcommand. intros H.
  assert (Hnone : (text, capture, rest) = ("", "", s) ->
                  s = (text ++ rest)%string /\
                  exists subcommand,
                    text = subcommand_text subcommand /\
                    (forall x, subcommand = Some x ->
                       every is_subcommand_char x = true)).
  { intros Heq; inversion Heq; subst. split; [reflexivity|].
    exists None. split; [reflexivity | discriminate]. }
  destruct s as [|c t]; [now apply Hnone|].
  destruct (Ascii.eqb_spec c "("%char) as [->|Hc].
  - destruct (span is_subcommand_char t) as [sub r] eqn:Hs.
    apply span_spec in Hs. destruct Hs as [-> Hsub].
    destruct r as [|d r']; [now apply Hnone|].
    destruct (Ascii.eqb_spec d ")"%char) as [->|Hd].
    + inversion H; subst. split.
      * simpl. now rewrite !append_assoc.
      * exists (Some capture). split; [reflexivity|].
        intros x Hx; inversion Hx; subst; exact Hsub.
    + apply Hnone. rewrite <- H.
      destruct d as [[] [] [] [] [] [] [] []]; try reflexivity.
      now elim Hd.
  - apply Hnone. rewrite <- H.
    destruct c as [[] [] [] [] [] [] [] []]; try reflexivity.
    now elim Hc.
Qed.

Lemma match_length_spec (s text capture rest : string) :
  match_length s = (text, capture, rest) ->
  s = (text ++ rest)%string /\
  exists len,
    text = length_text len /\
    (forall digits, len = Some digits ->
       digits <> "" /\ every is_digit digits = true).
Proof.
  unfold match_length. intros H.
  assert (Hnone : (text, capture, rest) = ("", "", s) ->
                  s = (text ++ rest)%string /\
                  exists len,
                    text = length_text len /\
                    (forall digits, len = Some digits ->
                       digits <> "" /\ every is_digit digits = true)).
  { intros Heq; inversion Heq; subst. split; [reflexivity|].
    exists None. split; [reflexivity | discriminate]. }
  destruct s as [|c t]; [now apply Hnone|].
  destruct (Ascii.eqb_spec c ":"%char) as [->|Hc].
  - destruct (span is_digit t) as [digits r] eqn:Hs.
    apply span_spec in Hs. destruct Hs as [-> Hdigits].
    destruct digits as [|d digits]; [now apply Hnone|].
    inversion H; subst. split; [reflexivity|].
    exists (Some (String d digits)). split; [reflexivity|].
    intros x Hx; inversion Hx; subst. split; [discriminate | exact Hdigits].
  - apply Hnone. rewrite <- H.
    destruct c as [[] [] [] [] [] [] [] []]; try reflexivity.
    now elim Hc.
Qed.

(** A successful search matched a command token at the start of the search
    space. *)
Lemma regex_search_sound (search_space : string) (m : smatch) :
  regex_search search_space = Some m ->
  command_token (str0 m) /\
  exists rest, search_space = (str0 m ++ rest)%string.
Proof.
  unfold regex_search. intros H.
  destruct search_space as [|c t]; [discriminate|].
  destruct (Ascii.eqb_spec c "%"%char) as [->|Hc].
  2:{ destruct c as [[] [] [] [] [] [] [] []]; try discriminate. now elim Hc. }
  destruct (span is_command_char t) as [command r1] eqn:Hs.
  apply span_spec in Hs. destruct Hs as [-> Hcommand].
  destruct command as [|n command]; [discriminate|].
  destruct (match_subcommand r1) as [[sub_text subcommand] r2] eqn:Hsub.
  destruct (match_length r2) as [[len_text len] r3] eqn:Hlen.
  apply match_subcommand_spec in Hsub. destruct Hsub as [-> (osub & -> & Hosub)].
  apply match_length_spec in Hlen. destruct Hlen as [-> (olen & -> & Holen)].
  destruct r3 as [|d r3]; [discriminate|].
  destruct (Ascii.eqb_spec d "%"%char) as [->|Hd].
  2:{ destruct d as [[] [] [] [] [] [] [] []]; try discriminate. now elim Hd. }
  inversion H; subst; simpl str0. split.
  - apply (command_token_intro (String n command) osub olen);
      [discriminate | exact Hcommand | exact Hosub | exact Holen].
  - exists r3. simpl. f_equal. rewrite !append_assoc. reflexivity.
Qed.

Lemma command_token_starts (token : string) :
  command_token token -> exists rest, token = String "%"%char rest.
Proof. intros [name subcommand len _ _ _ _]. simpl. eauto. Qed.

Lemma regex_search_length (search_space : string) (m : smatch) :
  regex_search search_space = Some m -> 1 <= String.length (str0 m).
Proof.
  intros H. apply regex_search_sound in H. destruct H as [Ht _].
  apply command_token_starts in Ht. destruct Ht as [rest ->]. simpl. lia.
Qed.

Lemma span_exact (p : ascii -> bool) (a : string) (c : ascii) (rest : string) :
  every p a = true -> p c = false ->
  span p (a ++ String c rest) = (a, String c rest).
Proof.
  intros Ha Hc. induction a as [|x a IH]; simpl in *.
  - now rewrite Hc.
  - apply andb_true_iff in Ha. destruct Ha as [Hx Ha].
    rewrite Hx, (IH Ha). reflexivity.
Qed.

(** A search space that starts with a command token is matched, and the
    match is that token. *)
Lemma regex_search_complete (token rest : string) :
  command_token token ->
  exists m, regex_search (token ++ rest) = Some m /\ str0 m = token.
Proof.
  intros [name subcommand len Hname Hclass Hsub Hlen].
  destruct name as [|n name]; [now elim Hname|].
  rewrite !append_assoc.
  change ("%" ++ rest)%string with (String "%"%char rest).
  set (after_len := String "%"%char rest).
  set (after_sub := (length_text len ++ after_len)%string).
  assert (Hspan : span is_command_char
                    (String n name ++ subcommand_text subcommand ++ after_sub)
                  = (String n name, (subcommand_text subcommand ++ after_sub)%string)).
  { destruct subcommand as [x|]; [|destruct len as [d|]];
      apply (span_exact is_command_char (String n name)); auto. }
  assert (Hms : match_subcommand (subcommand_text subcommand ++ after_sub)
                = (subcommand_text subcommand,
                   match subcommand with Some x => x | None => "" end,
                   after_sub)).
  { destruct subcommand as [x|].
    - unfold match_subcommand, subcommand_text.
      cbn [String.append]. rewrite append_assoc. cbn [String.append].
      rewrite (span_exact is_subcommand_char x ")"%char after_sub);
        [reflexivity | now apply Hsub | reflexivity].
    - destruct len as [d|]; reflexivity. }
  assert (Hml : match_length after_sub
                = (length_text len,
                   match len with Some d => d | None => "" end,
                   after_len)).
  { unfold after_sub. destruct len as [d|]; [|reflexivity].
    destruct (Hlen d eq_refl) as [Hd Hdigits].
    unfold match_length, length_text, after_len. cbn [String.append].
    rewrite (span_exact is_digit d "%"%char rest); [|exact Hdigits | reflexivity].
    destruct d; [now elim Hd | reflexivity]. }
  unfold regex_search. cbn [String.append].
  change (String n (name ++ subcommand_text subcommand ++ after_sub)%string)
    with (String n name ++ subcommand_text subcommand ++ after_sub)%string.
  rewrite Hspan, Hms, Hml. unfold after_len. cbn [String.append].
  eexists; split; [reflexivity|]. simpl. reflexivity.
Qed.

(** The search fails exactly when no prefix of the search space is a command
    token. *)
Lemma regex_search_none (search_space : string) :
  regex_search search_space = None <->
  (forall token rest,
     search_space = (token ++ rest)%string -> ~ command_token token).
Proof.
  split.
  - intros Hnone token rest -> Htoken.
    destruct (regex_search_complete token rest Htoken) as (m & Hm & _).
    congruence.
  - intros Hno. destruct (regex_search search_space) as [m|] eqn:Hm; [|reflexivity].
    apply regex_search_sound in Hm. destruct Hm as [Htoken [rest Hrest]].
    now elim (Hno _ _ Hrest).
Qed.

End RegexFacts.

(** ** The loop of [parse] *)

Section LoopFacts.
Context {E : Externals} {B : BuiltInCommandParsersBase}.
Variable format : string.
Variable command_parsers : list CommandParser.

Import SubstitutionFormatParser.

Local Abbreviation step := (iteration format command_parsers).
Local Abbreviation run := (loop (size format) format command_parsers).

(** The three ways an iteration can go. *)
Inductive iteration_case (st : state) : Outcome state -> Prop :=
| case_literal :
    char_at format (pos st) <> "%"%char ->
    iteration_case st
      (Returns (mk_state (S (pos st))
                         (current_token st ++ String (char_at format (pos st)) "")
                         (formatters st)))
| case_escape :
    char_at format (pos st) = "%"%char ->
    pos st + 1 < size format ->
    char_at format (pos st + 1) = "%"%char ->
    iteration_case st
      (Returns (mk_state (S (pos st + 1)) (current_token st ++ "%") (formatters st)))
| case_command (r : Outcome state) :
    char_at format (pos st) = "%"%char ->
    ~ (pos st + 1 < size format /\ char_at format (pos st + 1) = "%"%char) ->
    r = match regex_search (substr format (pos st)) with
        | None => Throws (no_valid_command format (pos st))
        | Some m =>
            max_length <- parse_max_length m ;;
            Returns (mk_state (S (pos st + String.length (str0 m) - 1)) ""
                       (flush (current_token st) (formatters st)
                        ++ [resolve command_parsers (str1 m) (str2 m) max_length]))
        end ->
    iteration_case st r.

Lemma iteration_cases (st : state) : iteration_case st (step st).
Proof.
  unfold iteration.
  destruct (Ascii.eqb_spec (char_at format (pos st)) "%"%char) as [Hc|Hc]; simpl.
  - destruct (pos st + 1 <? size format) eqn:Hlt; simpl.
    + apply Nat.ltb_lt in Hlt.
      destruct (Ascii.eqb_spec (char_at format (pos st + 1)) "%"%char) as [Hd|Hd].
      * now apply case_escape.
      * apply case_command; [exact Hc | tauto | reflexivity].
    + apply Nat.ltb_ge in Hlt.
      apply case_command; [exact Hc | intros [H _]; lia | reflexivity].
  - now apply case_literal.
Qed.

(** Every iteration moves [pos] forward. *)
Lemma iteration_advances (st st' : state) :
  step st = Returns st' -> pos st < pos st'.
Proof.
  intros H. pose proof (iteration_cases st) as Hcase. rewrite H in Hcase.
  inversion Hcase as [Hc | Hc Hlt Hd | r Hc Hn Hr]; subst; simpl; try lia.
  destruct (regex_search (substr format (pos st))) as [m|] eqn:Hm; [|discriminate].
  apply regex_search_length in Hm.
  destruct (parse_max_length m); simpl in Hr; [|discriminate].
  inversion Hr; subst; simpl. lia.
Qed.

(** Fuel beyond the characters left changes nothing. *)
Lemma loop_stable (fuel : nat) (st : state) :
  size format <= fuel + pos st ->
  loop (S fuel) format command_parsers st = loop fuel format command_parsers st.
Proof.
  revert st; induction fuel as [|fuel IH]; intros st Hfuel.
  - simpl. destruct (pos st <? size format) eqn:Hlt; [|reflexivity].
    apply Nat.ltb_lt in Hlt. lia.
  - change (loop (S (S fuel)) format command_parsers st)
      with (if pos st <? size format
            then st' <- step st ;; loop (S fuel) format command_parsers st'
            else Returns st).
    change (loop (S fuel) format command_parsers st)
      with (if pos st <? size format
            then st' <- step st ;; loop fuel format command_parsers st'
            else Returns st).
    destruct (pos st <? size format); [|reflexivity].
    destruct (step st) as [st'|e] eqn:Hstep; [|reflexivity]. simpl.
    apply IH. apply iteration_advances in Hstep. lia.
Qed.

Lemma loop_done (fuel : nat) (st : state) :
  size format <= pos st -> loop fuel format command_parsers st = Returns st.
Proof.
  intros H. destruct fuel as [|fuel]; [reflexivity|].
  change (loop (S fuel) format command_parsers st)
    with (if pos st <? size format
          then st' <- step st ;; loop fuel format command_parsers st'
          else Returns st).
  apply Nat.ltb_ge in H. now rewrite H.
Qed.

Lemma loop_unfold (fuel : nat) (st : state) :
  pos st < size format ->
  size format <= fuel + pos st ->
  loop fuel format command_parsers st
  = (st' <- step st ;; loop fuel format command_parsers st').
Proof.
  intros Hlt Hfuel. destruct fuel as [|fuel]; [simpl in Hfuel; lia|].
  change (loop (S fuel) format command_parsers st)
    with (if pos st <? size format
          then st' <- step st ;; loop fuel format command_parsers st'
          else Returns st).
  apply Nat.ltb_lt in Hlt. rewrite Hlt.
  destruct (step st) as [st'|e] eqn:Hstep; [|reflexivity].
  cbn [bind]. symmetry. apply loop_stable.
  apply iteration_advances in Hstep. lia.
Qed.

Lemma run_done (st : state) : size format <= pos st -> run st = Returns st.
Proof. apply loop_done. Qed.

Lemma run_unfold (st : state) :
  pos st < size format -> run st = (st' <- step st ;; run st').
Proof. intros H. apply loop_unfold; [exact H | lia]. Qed.

Lemma run_step (st st' : state) :
  pos st < size format -> step st = Returns st' -> run st = run st'.
Proof. intros Hlt Hstep. rewrite run_unfold by exact Hlt. now rewrite Hstep. Qed.

Lemma run_throws (st : state) (what : string) :
  pos st < size format -> step st = Throws what -> run st = Throws what.
Proof. intros Hlt Hstep. rewrite run_unfold by exact Hlt. now rewrite Hstep. Qed.

(** The loop leaves only when [pos] has reached the end of the format: the
    bound on the iterations is never what stops it. *)
Lemma run_exits (n : nat) (st st' : state) :
  size format - pos st <= n -> run st = Returns st' -> size format <= pos st'.
Proof.
  revert st; induction n as [|n IH]; intros st Hn Hrun.
  - rewrite run_done in Hrun by lia. inversion Hrun; subst. lia.
  - destruct (Nat.lt_ge_cases (pos st) (size format)) as [Hlt|Hge].
    + rewrite run_unfold in Hrun by exact Hlt.
      destruct (step st) as [st1|e] eqn:Hstep; [|discriminate]. simpl in Hrun.
      apply (IH st1); [|exact Hrun].
      apply iteration_advances in Hstep. lia.
    + rewrite run_done in Hrun by exact Hge. inversion Hrun; subst. exact Hge.
Qed.

(** Whatever the loop goes through leads to the same result. *)
Lemma scanned_run (st : state) :
  scanned format command_parsers st -> run (mk_state 0 "" []) = run st.
Proof.
  induction 1 as [|st st' Hsc IH Hlt Hstep]; [reflexivity|].
  rewrite IH. now apply run_step.
Qed.

(** Any bound of at least [format.size()] iterations gives what [parse]
    computes. *)
Lemma loop_enough (fuel : nat) (st : state) :
  size format <= fuel -> loop fuel format command_parsers st = run st.
Proof.
  intros H. replace fuel with ((fuel - size format) + size format) by lia.
  induction (fuel - size format) as [|k IH]; [reflexivity|].
  rewrite <- IH. apply loop_stable. lia.
Qed.

Lemma iteration_literal (st : state) :
  char_at format (pos st) <> "%"%char ->
  step st = Returns (mk_state (S (pos st))
                       (current_token st ++ String (char_at format (pos st)) "")
                       (formatters st)).
Proof.
  intros Hc. pose proof (iteration_cases st) as Hcase.
  inversion Hcase as [Hc' Heq | Hc' | r Hc']; [reflexivity | tauto | tauto].
Qed.

Lemma iteration_escape (st : state) :
  char_at format (pos st) = "%"%char ->
  pos st + 1 < size format ->
  char_at format (pos st + 1) = "%"%char ->
  step st = Returns (mk_state (S (pos st + 1)) (current_token st ++ "%")
                       (formatters st)).
Proof.
  intros Hc Hlt Hd. pose proof (iteration_cases st) as Hcase.
  inversion Hcase as [Hc' | Hc' Hlt' Hd' Heq | r Hc' Hn];
    [tauto | reflexivity | tauto].
Qed.

Lemma iteration_command (st : state) :
  char_at format (pos st) = "%"%char ->
  ~ (pos st + 1 < size format /\ char_at format (pos st + 1) = "%"%char) ->
  step st = match regex_search (substr format (pos st)) with
            | None => Throws (no_valid_command format (pos st))
            | Some m =>
                max_length <- parse_max_length m ;;
                Returns (mk_state (S (pos st + String.length (str0 m) - 1)) ""
                           (flush (current_token st) (formatters st)
                            ++ [resolve command_parsers (str1 m) (str2 m) max_length]))
            end.
Proof.
  intros Hc Hn. pose proof (iteration_cases st) as Hcase.
  inversion Hcase as [Hc' | Hc' Hlt' Hd' | r Hc' Hn' Hr Heq];
    [tauto | tauto | exact Hr].
Qed.

End LoopFacts.

(** ** Properties of [SubstitutionFormatParser::parse] *)

Section ParseFacts.
Context {E : Externals} {B : BuiltInCommandParsersBase}.

Import SubstitutionFormatParser.

(** Over a stretch without percent signs the loop only grows the pending
    literal. *)
Lemma loop_plain_text (format : string) (command_parsers : list CommandParser)
    (n : nat) (st : state) :
  (forall i, pos st <= i -> i < size format -> char_at format i <> "%"%char) ->
  size format - pos st <= n ->
  loop (size format) format command_parsers st
  = Returns (mk_state (Nat.max (pos st) (size format))
                      (current_token st ++ substr format (pos st))
                      (formatters st)).
Proof.
  revert st; induction n as [|n IH]; intros st Hplain Hn.
  - rewrite run_done by lia. destruct st as [p tok fs]; simpl in *.
    rewrite substr_beyond, append_empty_r by lia.
    now replace (Nat.max p (size format)) with p by lia.
  - destruct (Nat.lt_ge_cases (pos st) (size format)) as [Hlt|Hge].
    + rewrite (run_step format command_parsers st _ Hlt
                 (iteration_literal format command_parsers st
                    (Hplain _ (Nat.le_refl _) Hlt))).
      rewrite IH; cbn [pos current_token formatters].
      * rewrite (substr_char_at format (pos st) Hlt), append_assoc.
        cbn [String.append].
        now replace (Nat.max (S (pos st)) (size format))
          with (Nat.max (pos st) (size format)) by lia.
      * intros i Hi. apply Hplain. lia.
      * lia.
    + rewrite run_done by lia. destruct st as [p tok fs]; simpl in *.
      rewrite substr_beyond, append_empty_r by lia.
      now replace (Nat.max p (size format)) with p by lia.
Qed.

(** C7: a format string without any percent sign parses to exactly one plain
    string provider whose literal is the input; the empty string parses to
    one plain string provider holding the empty literal. *)
Theorem parse_plain_text (format : string) (command_parsers : list CommandParser) :
  (forall pos, pos < size format -> char_at format pos <> "%"%char) ->
  parse format command_parsers = Returns [PlainStringFormatter format]
  /\ parse "" command_parsers = Returns [PlainStringFormatter ""].
Proof.
  intros Hplain. split; [|reflexivity].
  unfold parse.
  rewrite (loop_plain_text format command_parsers (size format));
    [| intros i _; apply Hplain | simpl; lia].
  simpl. unfold finish; simpl.
  destruct format as [|c t]; reflexivity.
Qed.

(** After an iteration something is pending or has been appended. *)
Lemma iteration_leaves_something (format : string)
    (command_parsers : list CommandParser) (st st' : state) :
  iteration format command_parsers st = Returns st' ->
  current_token st' <> "" \/ formatters st' <> [].
Proof.
  intros H. pose proof (iteration_cases format command_parsers st) as Hcase.
  rewrite H in Hcase.
  inversion Hcase as [Hc | Hc Hlt Hd | r Hc Hn Hr]; subst; simpl.
  - left. apply append_nonempty.
  - left. apply append_nonempty.
  - right.
    destruct (regex_search (substr format (pos st))) as [m|]; [|discriminate].
    destruct (parse_max_length m); simpl in Hr; [|discriminate].
    inversion Hr; subst; simpl.
    intros Heq. symmetry in Heq. now apply app_cons_not_nil in Heq.
Qed.

Lemma loop_leaves_something (format : string)
    (command_parsers : list CommandParser) (n : nat) (st st' : state) :
  size format - pos st <= n ->
  loop (size format) format command_parsers st = Returns st' ->
  st' = st \/ current_token st' <> "" \/ formatters st' <> [].
Proof.
  revert st; induction n as [|n IH]; intros st Hn Hrun.
  - rewrite run_done in Hrun by lia. inversion Hrun; auto.
  - destruct (Nat.lt_ge_cases (pos st) (size format)) as [Hlt|Hge].
    + rewrite run_unfold in Hrun by exact Hlt.
      destruct (iteration format command_parsers st) as [st1|e] eqn:Hstep;
        [|discriminate].
      simpl in Hrun. right.
      destruct (IH st1) as [-> | H]; [| exact Hrun | | exact H].
      * apply iteration_advances in Hstep. lia.
      * eapply iteration_leaves_something; eassumption.
    + rewrite run_done in Hrun by exact Hge. inversion Hrun; auto.
Qed.

(** Whenever [parse] returns, it returns at least one provider. *)
Lemma parse_nonempty (format : string) (command_parsers : list CommandParser)
    (providers : list FormatterProvider) :
  parse format command_parsers = Returns providers -> providers <> [].
Proof.
  unfold parse. intros H.
  destruct (loop (size format) format command_parsers (mk_state 0 "" []))
    as [st|e] eqn:Hrun; [|discriminate].
  simpl in H. inversion H; subst; clear H.
  pose proof (run_exits format command_parsers (size format) _ _
                ltac:(simpl; lia) Hrun) as Hexit.
  pose proof (loop_leaves_something format command_parsers (size format) _ _
                ltac:(simpl; lia) Hrun) as Hsome.
  unfold finish.
  destruct (negb (String.length (current_token st) =? 0) || (size format =? 0))
    eqn:Hcond.
  - intros Heq. symmetry in Heq. now apply app_cons_not_nil in Heq.
  - apply orb_false_iff in Hcond. destruct Hcond as [Htok Hsize].
    apply negb_false_iff, Nat.eqb_eq in Htok. apply Nat.eqb_neq in Hsize.
    destruct Hsome as [-> | [Hne | Hne]].
    + simpl in Hexit. lia.
    + destruct (current_token st); [now elim Hne | discriminate].
    + exact Hne.
Qed.

End ParseFacts.

Section ScanFacts.
Context {E : Externals} {B : BuiltInCommandParsersBase}.

Import SubstitutionFormatParser.

(** C6, as amended: a doubled percent sign that the scanner meets at a scan
    position, that is outside any command token, is an escape: one literal
    percent sign joins the pending literal, no provider is appended, and the
    scan goes on after the pair; [parse] of two percent signs gives one plain
    string provider with a single percent sign, and [parse] of "100" followed
    by two percent signs gives one plain string provider with "100" and a
    percent sign. *)
Theorem escape_at_scan_position (format : string)
    (command_parsers : list CommandParser) (st : state) :
  scanned format command_parsers st ->
  pos st + 1 < size format ->
  char_at format (pos st) = "%"%char ->
  char_at format (pos st + 1) = "%"%char ->
  (exists st',
     iteration format command_parsers st = Returns st'
     /\ scanned format command_parsers st'
     /\ pos st' = pos st + 2
     /\ current_token st' = (current_token st ++ "%")%string
     /\ formatters st' = formatters st)
  /\ parse "%%" command_parsers = Returns [PlainStringFormatter "%"]
  /\ parse "100%%" command_parsers = Returns [PlainStringFormatter "100%"].
Proof.
  intros Hsc Hlt Hc Hd. split; [|split; reflexivity].
  pose proof (iteration_escape format command_parsers st Hc Hlt Hd) as Hstep.
  eexists; split; [exact Hstep|]. split; [|simpl; repeat split; lia].
  eapply scanned_next; [exact Hsc | lia | exact Hstep].
Qed.

(** C8: when the scanner reaches, at position [P], a percent sign that does
    not start a doubled percent sign and at which no prefix of the remaining
    text is a command token, [parse] throws, and the message says that no
    valid command was found at position [P]. *)
Theorem no_valid_command_at_scan_position (format : string)
    (command_parsers : list CommandParser) (st : state) :
  scanned format command_parsers st ->
  pos st < size format ->
  char_at format (pos st) = "%"%char ->
  ~ (pos st + 1 < size format /\ char_at format (pos st + 1) = "%"%char) ->
  (forall token rest,
     substr format (pos st) = (token ++ rest)%string -> ~ command_token token) ->
  parse format command_parsers
  = Throws ("Incorrect configuration: " ++ format
            ++ ". Couldn't find valid command at position " ++ decimal (pos st)).
Proof.
  intros Hsc Hlt Hc Hn Hnone. apply regex_search_none in Hnone.
  unfold parse. rewrite (scanned_run format command_parsers st Hsc).
  rewrite (run_throws format command_parsers st (no_valid_command format (pos st)));
    [reflexivity | exact Hlt |].
  rewrite iteration_command by assumption. now rewrite Hnone.
Qed.

End ScanFacts.

(** ** The flat formatter *)

Section FlatFacts.
Context {E : Externals} {B : BuiltInCommandParsersBase}.

Import SubstitutionFormatParser.

Lemma concatenation_app (a b : list string) :
  concatenation (a ++ b) = (concatenation a ++ concatenation b)%string.
Proof.
  induction a as [|x a IH]; simpl; [reflexivity|].
  now rewrite IH, append_assoc.
Qed.

Lemma fold_left_append {A : Type} (f : A -> string) (l : list A) (init : string) :
  fold_left (fun acc x => (acc ++ f x)%string) l init
  = (init ++ concatenation (map f l))%string.
Proof.
  revert init; induction l as [|x l IH]; intros init; simpl.
  - now rewrite append_empty_r.
  - now rewrite IH, append_assoc.
Qed.

Variable context : FormatterContext.
Variable stream_info : StreamInfo.
Variable placeholder : string.

Local Abbreviation flat providers :=
  (concatenation (map (bit context stream_info placeholder) providers)).

Lemma flat_app (a b : list FormatterProvider) :
  flat (a ++ b) = (flat a ++ flat b)%string.
Proof. now rewrite map_app, concatenation_app. Qed.

Lemma flat_flush (token : string) (providers : list FormatterProvider) :
  flat (flush token providers) = (flat providers ++ token)%string.
Proof.
  destruct token as [|c t]; simpl.
  - now rewrite append_empty_r.
  - rewrite flat_app. unfold bit. simpl. now rewrite append_empty_r.
Qed.

Lemma flat_finish (format : string) (st : state) :
  flat (finish format st) = (flat (formatters st) ++ current_token st)%string.
Proof.
  unfold finish.
  destruct (negb (String.length (current_token st) =? 0) || (size format =? 0))
    eqn:Hcond.
  - rewrite flat_app. unfold bit. simpl. now rewrite append_empty_r.
  - apply orb_false_iff in Hcond. destruct Hcond as [Htok _].
    apply negb_false_iff, Nat.eqb_eq in Htok.
    destruct (current_token st); [|discriminate]. now rewrite append_empty_r.
Qed.

Variable format : string.
Variable command_parsers : list CommandParser.

Hypothesis no_value :
  forall command subcommand max_length,
    formatWithContext (resolve command_parsers command subcommand max_length)
      context stream_info = None.

(** What the loop adds to the output from a state on is the rendering of the
    text still to scan. *)
Lemma loop_renders (n : nat) (st st' : state) :
  size format - pos st <= n ->
  loop (size format) format command_parsers st = Returns st' ->
  exists text,
    renders placeholder (substr format (pos st)) text /\
    (flat (formatters st') ++ current_token st')%string
    = ((flat (formatters st) ++ current_token st) ++ text)%string.
Proof.
  revert st; induction n as [|n IH]; intros st Hn Hrun.
  - rewrite run_done in Hrun by lia. inversion Hrun; subst.
    exists "". rewrite substr_beyond by lia. split; [constructor|].
    now rewrite append_empty_r.
  - destruct (Nat.lt_ge_cases (pos st) (size format)) as [Hlt|Hge].
    2:{ rewrite run_done in Hrun by lia. inversion Hrun; subst.
        exists "". rewrite substr_beyond by lia. split; [constructor|].
        now rewrite append_empty_r. }
    rewrite run_unfold in Hrun by exact Hlt.
    pose proof (iteration_cases format command_parsers st) as Hcase.
    pose proof (iteration_advances format command_parsers st) as Hadv.
    destruct (iteration format command_parsers st) as [st1|e] eqn:Hstep;
      [|discriminate].
    cbn [bind] in Hrun. specialize (Hadv st1 eq_refl).
    destruct (IH st1 ltac:(lia) Hrun) as (text1 & Hren & Hout).
    rewrite Hout. rewrite (substr_char_at format (pos st) Hlt).
    inversion Hcase as [Hc Heq | Hc Hlt1 Hd Heq | r Hc Hno Hr Heq]; subst.
    + exists (String (char_at format (pos st)) text1).
      cbn [pos current_token formatters] in *. split.
      * now apply renders_literal.
      * rewrite !append_assoc. reflexivity.
    + exists ("%" ++ text1)%string.
      cbn [pos current_token formatters] in *. split.
      * rewrite Hc.
        replace (S (pos st)) with (pos st + 1) by lia.
        rewrite (substr_char_at format (pos st + 1) Hlt1), Hd.
        replace (S (pos st + 1)) with (S (pos st + 1)) in Hren by lia.
        apply (renders_escape placeholder _ _ Hren).
      * rewrite !append_assoc. reflexivity.
    + destruct (regex_search (substr format (pos st))) as [m|] eqn:Hm;
        [|discriminate].
      destruct (parse_max_length m) as [max_length|]; [|discriminate].
      cbn [bind] in Hr. inversion Hr; subst; clear Hr.
      cbn [pos current_token formatters] in *.
      pose proof (regex_search_length _ _ Hm) as Hlen.
      apply regex_search_sound in Hm. destruct Hm as [Htoken [rest Hrest]].
      exists (placeholder ++ text1)%string. split.
      * rewrite <- (substr_char_at format (pos st) Hlt), Hrest.
        apply renders_command; [exact Htoken|].
        replace (S (pos st + String.length (str0 m) - 1))
          with (pos st + String.length (str0 m)) in Hren by lia.
        now rewrite <- substr_substr, Hrest, substr_append in Hren.
      * rewrite flat_app, flat_flush. unfold bit. simpl.
        rewrite no_value. simpl.
        rewrite !append_empty_r, !append_assoc. reflexivity.
Qed.

Lemma parse_renders (providers : list FormatterProvider) :
  parse format command_parsers = Returns providers ->
  renders placeholder format (flat providers).
Proof.
  unfold parse. intros H.
  destruct (loop (size format) format command_parsers (mk_state 0 "" []))
    as [st|e] eqn:Hrun; [|discriminate].
  cbn [bind] in H. inversion H; subst; clear H.
  destruct (loop_renders (size format) _ _ ltac:(simpl; lia) Hrun)
    as (text & Hren & Hout).
  rewrite flat_finish, Hout. exact Hren.
Qed.

End FlatFacts.

Section FlatFormatter.
Context {E : Externals} {B : BuiltInCommandParsersBase}.

(** C1: flat evaluation of a compiled plan is the in-order concatenation of
    its providers' texts, a provider without a value contributing the
    configured placeholder, which is "-" unless empty values are omitted;
    and when no command produces a value in the context, the result for the
    placeholder "-" is the literal text of the format string with every
    command token replaced by "-". *)
Theorem flat_formatting (format : string) (omit_empty_values : bool)
    (command_parsers : list CommandParser) (self : CommonFormatterBaseImpl.t)
    (context : FormatterContext) (stream_info : StreamInfo) :
  CommonFormatterBaseImpl.make format omit_empty_values command_parsers
    = Returns self ->
  CommonFormatterBaseImpl.formatWithContext self context stream_info
    = concatenation
        (map (fun provider =>
                value_or (formatWithContext provider context stream_info)
                         (CommonFormatterBaseImpl.empty_value_string_ self))
             (CommonFormatterBaseImpl.providers_ self))
  /\ CommonFormatterBaseImpl.empty_value_string_ self
     = (if omit_empty_values then "" else "-")
  /\ ((forall command subcommand max_length,
         formatWithContext
           (SubstitutionFormatParser.resolve command_parsers command subcommand
              max_length)
           context stream_info = None) ->
      omit_empty_values = false ->
      renders "-" format
        (CommonFormatterBaseImpl.formatWithContext self context stream_info)).
Proof.
  unfold CommonFormatterBaseImpl.make. intros Hmake.
  destruct (SubstitutionFormatParser.parse format command_parsers)
    as [providers|e] eqn:Hparse; [|discriminate].
  cbn [bind] in Hmake. inversion Hmake; subst; clear Hmake.
  cbn [CommonFormatterBaseImpl.empty_value_string_
       CommonFormatterBaseImpl.providers_].
  assert (Hflat : forall self,
            CommonFormatterBaseImpl.formatWithContext self context stream_info
            = concatenation
                (map (fun provider =>
                        value_or (formatWithContext provider context stream_info)
                                 (CommonFormatterBaseImpl.empty_value_string_ self))
                     (CommonFormatterBaseImpl.providers_ self))).
  { intros self. unfold CommonFormatterBaseImpl.formatWithContext.
    now rewrite fold_left_append. }
  split; [apply Hflat | split; [reflexivity|]].
  intros Hnone ->. rewrite Hflat.
  cbn [CommonFormatterBaseImpl.empty_value_string_
       CommonFormatterBaseImpl.providers_].
  now apply (parse_renders context stream_info "-" format command_parsers).
Qed.

End FlatFormatter.

(** ** Resolution of a command *)

Section Resolution.
Context {E : Externals} {B : BuiltInCommandParsersBase}.

Import SubstitutionFormatParser.

Lemma try_parsers_app (before after : list CommandParser)
    (command subcommand : string) (max_length : option N) :
  try_parsers (before ++ after) command subcommand max_length
  = match try_parsers before command subcommand max_length with
    | (Some formatter, max_length') => (Some formatter, max_length')
    | (None, max_length') => try_parsers after command subcommand max_length'
    end.
Proof.
  revert max_length; induction before as [|cmd before IH]; intros max_length;
    simpl; [reflexivity|].
  destruct (cmd command subcommand max_length) as [[formatter|] max_length'];
    [reflexivity | apply IH].
Qed.

(** C2: at a command token the loop appends the provider that [resolve]
    picks; [resolve] takes the provider of the built-in command parsers when
    one of them returns a provider, whatever the caller's parsers would
    return; otherwise that of the caller's parsers; and the generic stream-info
    provider only when no parser of either list returned one. Within a list
    the parsers are asked in order and the first provider wins. *)
Theorem resolve_priority (command_parsers : list CommandParser) :
  (forall format st m max_length,
     char_at format (pos st) = "%"%char ->
     ~ (pos st + 1 < size format /\ char_at format (pos st + 1) = "%"%char) ->
     regex_search (substr format (pos st)) = Some m ->
     parse_max_length m = Returns max_length ->
     iteration format command_parsers st
     = Returns (mk_state (pos st + String.length (str0 m)) ""
                  (flush (current_token st) (formatters st)
                   ++ [resolve command_parsers (str1 m) (str2 m) max_length])))
  /\ (forall command subcommand max_length formatter max_length',
        try_parsers commandParsers command subcommand max_length
          = (Some formatter, max_length') ->
        resolve command_parsers command subcommand max_length = formatter)
  /\ (forall command subcommand max_length max_length1 formatter max_length',
        try_parsers commandParsers command subcommand max_length
          = (None, max_length1) ->
        try_parsers command_parsers command subcommand max_length1
          = (Some formatter, max_length') ->
        resolve command_parsers command subcommand max_length = formatter)
  /\ (forall command subcommand max_length max_length1 max_length2,
        try_parsers commandParsers command subcommand max_length
          = (None, max_length1) ->
        try_parsers command_parsers command subcommand max_length1
          = (None, max_length2) ->
        resolve command_parsers command subcommand max_length
        = StreamInfoFormatter command subcommand max_length2)
  /\ (forall before cmd after command subcommand max_length max_length1
             formatter max_length2,
        try_parsers before command subcommand max_length = (None, max_length1) ->
        cmd command subcommand max_length1 = (Some formatter, max_length2) ->
        try_parsers (before ++ cmd :: after) command subcommand max_length
        = (Some formatter, max_length2))
  /\ (forall cmd rest command subcommand max_length max_length',
        try_parsers (cmd :: rest) command subcommand max_length
          = (None, max_length') ->
        exists max_length1,
          cmd command subcommand max_length = (None, max_length1)
          /\ try_parsers rest command subcommand max_length1 = (None, max_length')).
Proof.
  repeat split.
  - intros format st m max_length Hc Hn Hm Hlen.
    rewrite iteration_command by assumption. rewrite Hm, Hlen. cbn [bind].
    apply regex_search_length in Hm.
    now replace (S (pos st + String.length (str0 m) - 1))
      with (pos st + String.length (str0 m)) by lia.
  - intros command subcommand max_length formatter max_length' H.
    unfold resolve. now rewrite H.
  - intros command subcommand max_length max_length1 formatter max_length' H1 H2.
    unfold resolve. now rewrite H1, H2.
  - intros command subcommand max_length max_length1 max_length2 H1 H2.
    unfold resolve. now rewrite H1, H2.
  - intros before cmd after command subcommand max_length max_length1
      formatter max_length2 H1 H2.
    rewrite try_parsers_app, H1. simpl. now rewrite H2.
  - intros cmd rest command subcommand max_length max_length' H. simpl in H.
    destruct (cmd command subcommand max_length) as [[formatter|] max_length1];
      [discriminate | eauto].
Qed.

End Resolution.

(** ** The structured formatter *)

Section StructuredFacts.
Context {E : Externals} {B : BuiltInCommandParsersBase}.

Import StructFormatterBase.

(** Induction over a value and the values nested in it. *)
Lemma Value_nested_ind (P : Value number -> Prop) :
  P NullValue ->
  (forall n, P (NumberValue n)) ->
  (forall s, P (StringValue s)) ->
  (forall b, P (BoolValue b)) ->
  (forall fields, Forall (fun field => P (snd field)) fields -> P (StructValue fields)) ->
  (forall values, Forall P values -> P (ListValue values)) ->
  forall value, P value.
Proof.
  intros Hnull Hnumber Hstring Hbool Hstruct Hlist.
  fix IH 1. intros [ | n | s | b | fields | values].
  - exact Hnull.
  - apply Hnumber.
  - apply Hstring.
  - apply Hbool.
  - apply Hstruct. induction fields as [|field rest IHrest]; constructor.
    + apply IH.
    + exact IHrest.
  - apply Hlist. induction values as [|value rest IHrest]; constructor.
    + apply IH.
    + exact IHrest.
Qed.

Lemma emplace_Forall {V : Type} (Q : string * V -> Prop) (key : string) (value : V)
    (m : list (string * V)) :
  Q (key, value) -> Forall Q m -> Forall Q (emplace key value m).
Proof.
  intros Hq Hm. induction Hm as [|[k v] rest Hkv Hrest IH]; simpl.
  - constructor; [exact Hq | constructor].
  - destruct (String.compare key k).
    + constructor; assumption.
    + constructor; [exact Hq | constructor; assumption].
    + constructor; assumption.
Qed.

Lemma map_fields_Forall (P : StructFormatValue -> Prop)
    (convert : Value number -> Outcome StructFormatValue)
    (fields : Struct) (output result : StructFormatMap) :
  Forall (fun field => forall c, convert (snd field) = Returns c -> P c) fields ->
  Forall (fun pair => P (snd pair)) output ->
  map_fields convert fields output = Returns result ->
  Forall (fun pair => P (snd pair)) result.
Proof.
  intros Hfields. revert output.
  induction Hfields as [|[key value] rest Hvalue Hrest IH]; intros output Hout H;
    simpl in H.
  - inversion H; subst. exact Hout.
  - simpl in Hvalue. destruct (convert value) as [c|e]; [|discriminate].
    cbn [bind] in H. apply (IH _ (emplace_Forall _ key c output (Hvalue c eq_refl) Hout) H).
Qed.

Lemma list_values_Forall (P : StructFormatValue -> Prop)
    (convert : Value number -> Outcome StructFormatValue)
    (values : list (Value number)) (output result : StructFormatList) :
  Forall (fun value => forall c, convert value = Returns c -> P c) values ->
  Forall P output ->
  list_values convert values output = Returns result ->
  Forall P result.
Proof.
  intros Hvalues. revert output.
  induction Hvalues as [|value rest Hvalue Hrest IH]; intros output Hout H;
    simpl in H.
  - inversion H; subst. exact Hout.
  - destruct (convert value) as [c|e]; [|discriminate].
    cbn [bind] in H. apply (IH (output ++ [c])); [|exact H].
    apply Forall_app. split; [exact Hout | constructor; [now apply Hvalue | constructor]].
Qed.

(** Every scalar leaf of a compiled value holds a provider. *)
Lemma convert_leaves_nonempty (commands_ : list CommandParser)
    (value : Value number) (compiled : StructFormatValue) :
  convert commands_ value = Returns compiled -> leaves_nonempty compiled = true.
Proof.
  revert compiled. induction value as [ | n | s | b | fields IH | values IH]
    using Value_nested_ind; intros compiled H; simpl in H; try discriminate.
  - inversion H; subst. reflexivity.
  - unfold toFormatStringValue in H.
    destruct (SubstitutionFormatParser.parse s commands_) as [providers|e] eqn:Hp;
      [|discriminate].
    cbn [bind] in H. inversion H; subst. simpl.
    apply parse_nonempty in Hp. destruct providers; [now elim Hp | reflexivity].
  - destruct (map_fields (convert commands_) fields []) as [output|e] eqn:Hm;
      [|discriminate].
    cbn [bind] in H. inversion H; subst. simpl.
    apply forallb_forall. apply Forall_forall.
    apply (map_fields_Forall (fun c => leaves_nonempty c = true) _ _ _ _ IH
             (Forall_nil _) Hm).
  - destruct (list_values (convert commands_) values []) as [output|e] eqn:Hm;
      [|discriminate].
    cbn [bind] in H. inversion H; subst. simpl.
    apply forallb_forall. apply Forall_forall.
    apply (list_values_Forall (fun c => leaves_nonempty c = true) _ _ _ _ IH
             (Forall_nil _) Hm).
Qed.

(** C9: whenever [parse] returns, the provider sequence holds at least one
    provider, also for the empty format string; so every scalar leaf of a
    compiled structured format holds at least one provider, which is what
    [providersCallback] asserts. *)
Theorem parse_never_empty (format : string) (command_parsers : list CommandParser)
    (providers : list FormatterProvider) :
  SubstitutionFormatParser.parse format command_parsers = Returns providers ->
  providers <> []
  /\ SubstitutionFormatParser.parse "" command_parsers
     = Returns [PlainStringFormatter ""]
  /\ (forall format_mapping preserve_types omit_empty_values self,
        make format_mapping preserve_types omit_empty_values command_parsers
          = Returns self ->
        leaves_nonempty (StructFormatMapWrapper (struct_output_format_ self)) = true).
Proof.
  intros H. split; [now apply (parse_nonempty format command_parsers)|].
  split; [reflexivity|].
  intros format_mapping preserve_types omit_empty_values self Hmake.
  unfold make in Hmake.
  destruct (toFormatMapValue command_parsers format_mapping) as [output|e] eqn:Hm;
    [|discriminate].
  cbn [bind] in Hmake. inversion Hmake; subst; clear Hmake.
  cbn [struct_output_format_].
  apply (convert_leaves_nonempty command_parsers (StructValue format_mapping)).
  simpl. unfold toFormatMapValue in Hm. now rewrite Hm.
Qed.

End StructuredFacts.

Section EvaluationFacts.
Context {E : Externals} {B : BuiltInCommandParsersBase}.

Lemma set_field_fresh (key : string) (value : Value number) (fields : Struct) :
  ~ In key (map fst fields) -> set_field key value fields = fields ++ [(key, value)].
Proof.
  induction fields as [|[k v] rest IH]; intros Hfresh; simpl in *; [reflexivity|].
  destruct (String.eqb_spec k key) as [->|Hk]; [tauto|].
  rewrite IH by tauto. reflexivity.
Qed.

(** The provider texts of a scalar leaf, joined. *)
Lemma providers_concatenation (self : StructFormatterBase.t) (providers : list FormatterProvider)
    (context : FormatterContext) (stream_info : StreamInfo) :
  2 <= List.length providers ->
  StructFormatterBase.providersCallback self providers context stream_info
  = StringValue
      (concatenation
         (map (fun provider =>
                 value_or (formatWithContext provider context stream_info)
                          (StructFormatterBase.empty_value_ self))
              providers)).
Proof.
  intros Hlen. destruct providers as [|p1 [|p2 rest]]; simpl in Hlen; try lia.
  unfold StructFormatterBase.providersCallback. now rewrite fold_left_append.
Qed.

(** C3: a scalar leaf with exactly one provider yields, when types are
    preserved, the typed value of that provider, so a plain number provider
    yields a number value, where without type preservation it yields the
    string value of its text; a scalar leaf with two or more providers yields
    the string value that concatenates the providers' texts, the placeholder
    standing for a missing one, whatever the type preservation setting. *)
Theorem scalar_leaf_typing (self : StructFormatterBase.t) (context : FormatterContext)
    (stream_info : StreamInfo) :
  (forall provider,
     StructFormatterBase.preserve_types_ self = true ->
     StructFormatterBase.providersCallback self [provider] context stream_info
     = formatValueWithContext provider context stream_info)
  /\ (forall num,
        StructFormatterBase.preserve_types_ self = true ->
        StructFormatterBase.providersCallback self [PlainNumberFormatter num] context stream_info
        = NumberValue num)
  /\ (forall providers,
        2 <= List.length providers ->
        StructFormatterBase.providersCallback self providers context stream_info
        = StringValue
            (concatenation
               (map (fun provider =>
                       value_or (formatWithContext provider context stream_info)
                                (StructFormatterBase.empty_value_ self))
                    providers)))
  /\ (forall providers preserve_types,
        2 <= List.length providers ->
        StructFormatterBase.providersCallback
          (StructFormatterBase.mk (StructFormatterBase.omit_empty_values_ self) preserve_types (StructFormatterBase.empty_value_ self)
              (StructFormatterBase.struct_output_format_ self))
          providers context stream_info
        = StructFormatterBase.providersCallback self providers context stream_info)
  /\ (forall num,
        StructFormatterBase.preserve_types_ self = false ->
        StructFormatterBase.providersCallback self [PlainNumberFormatter num]
          context stream_info
        = StringValue (number_text num)).
Proof.
  split; [|split; [|split; [|split]]].
  - intros provider Hpreserve. unfold StructFormatterBase.providersCallback.
    now rewrite Hpreserve.
  - intros num Hpreserve. unfold StructFormatterBase.providersCallback.
    now rewrite Hpreserve.
  - intros providers. apply providers_concatenation.
  - intros providers preserve_types Hlen.
    now rewrite !providers_concatenation by exact Hlen.
  - intros num Hpreserve. unfold StructFormatterBase.providersCallback.
    rewrite Hpreserve.
    destruct (StructFormatterBase.omit_empty_values_ self); reflexivity.
Qed.

Section Callbacks.
Variable self : StructFormatterBase.t.
Variable visitor : StructFormatterBase.StructFormatValue -> Value number.

Local Abbreviation omit := (StructFormatterBase.omit_empty_values_ self).

Lemma list_callback_fold (format_list : StructFormatterBase.StructFormatList)
    (output : list (Value number)) :
  fold_left
    (fun output val =>
       let value := visitor val in
       if omit && is_null value then output else output ++ [value])
    format_list output
  = output ++ filter (kept omit) (map visitor format_list).
Proof.
  revert output; induction format_list as [|val rest IH]; intros output; simpl.
  - now rewrite app_nil_r.
  - rewrite IH. unfold kept at 2.
    destruct (omit && is_null (visitor val)); simpl;
      [reflexivity | now rewrite <- app_assoc].
Qed.

Lemma map_callback_fold (format_map : StructFormatterBase.StructFormatMap)
    (output : Struct) :
  NoDup (map fst format_map) ->
  (forall key, In key (map fst format_map) -> ~ In key (map fst output)) ->
  fold_left
    (fun fields pair =>
       let value := visitor (snd pair) in
       if omit && is_null value then fields
       else set_field (fst pair) value fields)
    format_map output
  = output ++ filter (fun field => kept omit (snd field))
                     (map (evaluated_field visitor) format_map).
Proof.
  revert output; induction format_map as [|[key fv] rest IH];
    intros output Hnodup Hfresh; simpl.
  - now rewrite app_nil_r.
  - inversion Hnodup as [|? ? Hkey Hrest]; subst.
    unfold kept at 1. simpl.
    destruct (omit && is_null (visitor fv)); simpl.
    + apply IH; [exact Hrest|]. intros k Hk. apply Hfresh. simpl. now right.
    + rewrite set_field_fresh by (apply Hfresh; simpl; now left).
      rewrite IH; [now rewrite <- app_assoc | exact Hrest |].
      intros k Hk. rewrite map_app, in_app_iff. simpl.
      intros [Hin | [Heq | []]].
      * apply (Hfresh k); [simpl; now right | exact Hin].
      * subst. exact (Hkey Hk).
Qed.

(** What the list callback computes. *)
Lemma list_callback (format_list : StructFormatterBase.StructFormatList) :
  StructFormatterBase.structFormatListCallback self visitor format_list
  = ListValue (filter (kept omit) (map visitor format_list)).
Proof.
  unfold StructFormatterBase.structFormatListCallback.
  now rewrite list_callback_fold.
Qed.

(** What the map callback computes on a map, whose keys are distinct. *)
Lemma map_callback (format_map : StructFormatterBase.StructFormatMap) :
  NoDup (map fst format_map) ->
  StructFormatterBase.structFormatMapCallback self visitor format_map
  = let output :=
      filter (fun field => kept omit (snd field))
             (map (evaluated_field visitor) format_map) in
    if omit && (List.length output =? 0) then NullValue else StructValue output.
Proof.
  intros Hnodup. unfold StructFormatterBase.structFormatMapCallback.
  rewrite map_callback_fold; [reflexivity | exact Hnodup | auto].
Qed.

(** With empty values omitted the map callback keeps the fields that are not
    null, and gives the null marker when none is left. *)
Lemma map_callback_omitting (format_map : StructFormatterBase.StructFormatMap) :
  omit = true ->
  NoDup (map fst format_map) ->
  StructFormatterBase.structFormatMapCallback self visitor format_map
  = match filter (fun field => not_null (snd field))
                 (map (evaluated_field visitor) format_map) with
    | [] => NullValue
    | fields => StructValue fields
    end.
Proof.
  intros Homit Hnodup. rewrite map_callback by exact Hnodup.
  rewrite Homit. cbv zeta. cbn [andb].
  change (fun field : string * Value number => kept true (snd field))
    with (fun field : string * Value number => not_null (snd field)).
  destruct (filter (fun field => not_null (snd field))
              (map (evaluated_field visitor) format_map)); reflexivity.
Qed.

Lemma list_callback_omitting (format_list : StructFormatterBase.StructFormatList) :
  omit = true ->
  StructFormatterBase.structFormatListCallback self visitor format_list
  = ListValue (filter not_null (map visitor format_list)).
Proof. intros Homit. rewrite list_callback, Homit. reflexivity. Qed.

End Callbacks.
End EvaluationFacts.

Section OmitEmptyValues.
Context {E : Externals} {B : BuiltInCommandParsersBase}.

(** C4: with empty values omitted, a list node evaluates to the list of its
    elements' values without the null ones, in order, and is a list value
    even when nothing is left; a map node evaluates to its fields' values
    without the null ones, and to the null marker when no field is left, so
    that a nested map left without fields is dropped from the map or list
    around it. *)
Theorem omit_empty_values_drops_null (self : StructFormatterBase.t)
    (visitor : StructFormatterBase.StructFormatValue -> Value number) :
  StructFormatterBase.omit_empty_values_ self = true ->
  (forall format_list,
     StructFormatterBase.structFormatListCallback self visitor format_list
     = ListValue (filter not_null (map visitor format_list)))
  /\ (forall format_list,
        is_null (StructFormatterBase.structFormatListCallback self visitor format_list)
        = false)
  /\ (forall format_map,
        NoDup (map fst format_map) ->
        StructFormatterBase.structFormatMapCallback self visitor format_map
        = match filter (fun field => not_null (snd field))
                       (map (evaluated_field visitor) format_map) with
          | [] => NullValue
          | fields => StructValue fields
          end)
  /\ (forall format_map,
        NoDup (map fst format_map) ->
        (forall pair, In pair format_map -> is_null (visitor (snd pair)) = true) ->
        StructFormatterBase.structFormatMapCallback self visitor format_map
        = NullValue).
Proof.
  intros Homit.
  split; [|split; [|split]].
  - intros format_list. now apply list_callback_omitting.
  - intros format_list. reflexivity.
  - intros format_map. now apply map_callback_omitting.
  - intros format_map Hnodup Hnull.
    rewrite map_callback_omitting by assumption.
    replace (filter (fun field => not_null (snd field))
               (map (evaluated_field visitor) format_map))
      with (@nil (string * Value number)); [reflexivity|].
    symmetry. clear Hnodup.
    induction format_map as [|pair rest IH]; [reflexivity|]. simpl.
    unfold not_null at 1. rewrite (Hnull pair (or_introl eq_refl)). simpl.
    apply IH. intros p Hp. apply Hnull. now right.
Qed.

(** C10: with empty values omitted, a scalar leaf with two or more providers
    that all yield no value evaluates to the empty string value; this is not
    the null marker, and the leaf stays in the map or list around it. *)
Theorem all_missing_concatenation_is_kept (format_mapping : Struct)
    (preserve_types : bool) (commands : list CommandParser)
    (self : StructFormatterBase.t) (context : FormatterContext)
    (stream_info : StreamInfo) (providers : list FormatterProvider) :
  StructFormatterBase.make format_mapping preserve_types true commands
    = Returns self ->
  2 <= List.length providers ->
  (forall provider,
     In provider providers ->
     formatWithContext provider context stream_info = None) ->
  StructFormatterBase.providersCallback self providers context stream_info
    = StringValue ""
  /\ is_null (StructFormatterBase.providersCallback self providers context stream_info)
     = false
  /\ (forall format_map key,
        NoDup (map fst format_map) ->
        In (key, StructFormatterBase.Providers providers) format_map ->
        exists fields,
          StructFormatterBase.structFormatMapCallback self
            (StructFormatterBase.visit self context stream_info) format_map
          = StructValue fields
          /\ In (key, StringValue "") fields)
  /\ (forall format_list,
        In (StructFormatterBase.Providers providers) format_list ->
        exists values,
          StructFormatterBase.structFormatListCallback self
            (StructFormatterBase.visit self context stream_info) format_list
          = ListValue values
          /\ In (StringValue "") values).
Proof.
  intros Hmake Hlen Hmissing.
  assert (Homit : StructFormatterBase.omit_empty_values_ self = true
                  /\ StructFormatterBase.empty_value_ self = "").
  { unfold StructFormatterBase.make in Hmake.
    destruct (StructFormatterBase.toFormatMapValue commands format_mapping);
      [|discriminate].
    cbn [bind] in Hmake. inversion Hmake; subst. split; reflexivity. }
  destruct Homit as [Homit Hempty].
  assert (Hleaf : StructFormatterBase.providersCallback self providers context
                    stream_info = StringValue "").
  { rewrite providers_concatenation by exact Hlen. f_equal. rewrite Hempty.
    clear Hlen. induction providers as [|p rest IH]; [reflexivity|]. simpl.
    rewrite (Hmissing p (or_introl eq_refl)). simpl.
    apply IH. intros q Hq. apply Hmissing. now right. }
  split; [exact Hleaf | split; [now rewrite Hleaf | split]].
  - intros format_map key Hnodup Hin.
    rewrite map_callback_omitting by assumption.
    assert (Hkept : In (key, StringValue "")
                      (filter (fun field => not_null (snd field))
                         (map (evaluated_field
                                 (StructFormatterBase.visit self context stream_info))
                              format_map))).
    { apply filter_In. split; [|reflexivity].
      apply in_map_iff. exists (key, StructFormatterBase.Providers providers).
      split; [|exact Hin]. unfold evaluated_field. simpl. now rewrite Hleaf. }
    destruct (filter (fun field => not_null (snd field))
                (map (evaluated_field
                        (StructFormatterBase.visit self context stream_info))
                     format_map)) as [|field fields] eqn:Hf; [now elim Hkept|].
    exists (field :: fields). split; [reflexivity | exact Hkept].
  - intros format_list Hin. rewrite list_callback_omitting by exact Homit.
    eexists; split; [reflexivity|].
    apply filter_In. split; [|reflexivity].
    apply in_map_iff. exists (StructFormatterBase.Providers providers).
    split; [|exact Hin]. simpl. exact Hleaf.
Qed.

End OmitEmptyValues.

(** ** Key order *)

Section KeyOrder.
Context {E : Externals} {B : BuiltInCommandParsersBase}.

Lemma key_lt_trans (a b c : string) : key_lt a b -> key_lt b c -> key_lt a c.
Proof.
  unfold key_lt. intros Hab Hbc.
  apply String_as_OT.cmp_lt. apply String_as_OT.cmp_lt in Hab, Hbc.
  exact (String_as_OT.lt_trans _ _ _ Hab Hbc).
Qed.

Lemma key_lt_irrefl (a : string) : ~ key_lt a a.
Proof.
  unfold key_lt. intros H.
  assert (Heq : String.compare a a = Eq) by now apply String_as_OT.cmp_eq.
  congruence.
Qed.

Lemma emplace_sorted {V : Type} (key : string) (value : V) (m : list (string * V)) :
  Sorted key_lt (map fst m) -> Sorted key_lt (map fst (emplace key value m)).
Proof.
  induction m as [|[k v] rest IH]; simpl; intros Hs.
  - repeat constructor.
  - destruct (String.compare key k) eqn:Hc; simpl.
    + exact Hs.
    + constructor; [exact Hs | constructor; exact Hc].
    + inversion Hs as [|? ? Hrest Hhd]; subst.
      constructor; [now apply IH|].
      assert (Hk : key_lt k key).
      { unfold key_lt. rewrite String.compare_antisym, Hc. reflexivity. }
      destruct rest as [|[k2 v2] rest2]; simpl; [now constructor|].
      apply HdRel_inv in Hhd.
      destruct (String.compare key k2); simpl; now constructor.
Qed.

Lemma map_fields_sorted
    (convert : Value number -> Outcome StructFormatterBase.StructFormatValue)
    (fields : Struct) (output result : StructFormatterBase.StructFormatMap) :
  Sorted key_lt (map fst output) ->
  StructFormatterBase.map_fields convert fields output = Returns result ->
  Sorted key_lt (map fst result).
Proof.
  revert output; induction fields as [|[key value] rest IH]; intros output Hs H;
    simpl in H.
  - inversion H; subst. exact Hs.
  - destruct (convert value) as [c|e]; [|discriminate]. cbn [bind] in H.
    apply (IH _ (emplace_sorted key c output Hs) H).
Qed.

(** The compiled map lists its keys in lexicographic order, whatever the
    order of the fields in the format. *)
Lemma compiled_keys_sorted (commands_ : list CommandParser) (struct_format : Struct)
    (output : StructFormatterBase.StructFormatMap) :
  StructFormatterBase.toFormatMapValue commands_ struct_format = Returns output ->
  StronglySorted key_lt (map fst output).
Proof.
  intros H. apply Sorted_StronglySorted.
  - intros a b c. apply key_lt_trans.
  - apply (map_fields_sorted (StructFormatterBase.convert commands_)
             struct_format [] output); [constructor | exact H].
Qed.

Lemma sorted_keys_NoDup (keys : list string) :
  StronglySorted key_lt keys -> NoDup keys.
Proof.
  induction 1 as [|k rest Hrest IH Hall]; constructor; [|exact IH].
  intros Hin. rewrite Forall_forall in Hall.
  exact (key_lt_irrefl k (Hall k Hin)).
Qed.

End KeyOrder.

(** ** The properties at concrete inputs *)

Section Instances.
Import CommandExtension.
Import SubstitutionFormatParser.

#[local] Existing Instance externals.

Lemma flat_formatting_witness :
  CommonFormatterBaseImpl.make (B := no_builtins) "GET %REQ(X):10% 100%%" false []
    = Returns (CommonFormatterBaseImpl.mk "-"
                 [PlainStringFormatter "GET ";
                  StreamInfoFormatter "REQ" "X" (Some 10%N);
                  PlainStringFormatter " 100%"])
  /\ renders "-" "GET %REQ(X):10% 100%%" "GET - 100%".
Proof.
  split; [reflexivity|].
  destruct (flat_formatting (B := no_builtins) "GET %REQ(X):10% 100%%" false []
              (CommonFormatterBaseImpl.mk "-"
                 [PlainStringFormatter "GET ";
                  StreamInfoFormatter "REQ" "X" (Some 10%N);
                  PlainStringFormatter " 100%"])
              tt [] eq_refl) as (_ & _ & Hrenders).
  exact (Hrenders (fun _ _ _ => eq_refl) eq_refl).
Defined.

(** A caller's parser that claims the command of the built-in
    [AdditionalCommandParser] loses to it. *)
Lemma resolve_priority_witness :
  resolve (B := additional_builtin)
    [fun command _ max_length =>
       if String.eqb command "ADDITIONAL_EXTENSION"
       then (Some (ExtensionFormatter TestFormatter), max_length)
       else (None, max_length)]
    "ADDITIONAL_EXTENSION" "" None
  = ExtensionFormatter AdditionalFormatter
  /\ resolve (B := additional_builtin) [TestCommandParser] "COMMAND_EXTENSION" "" None
     = ExtensionFormatter TestFormatter
  /\ resolve (B := additional_builtin) [TestCommandParser] "PROTOCOL" "" None
     = StreamInfoFormatter "PROTOCOL" "" None
  /\ try_parsers [TestCommandParser; AdditionalCommandParser]
       "ADDITIONAL_EXTENSION" "" None
     = (Some (ExtensionFormatter AdditionalFormatter), None)
  /\ iteration (B := additional_builtin) "%COMMAND_EXTENSION%" [TestCommandParser]
       (mk_state 0 "" [])
     = Returns (mk_state 19 "" [ExtensionFormatter TestFormatter]).
Proof.
  split; [|split; [|split; [|split]]].
  - apply (proj1 (proj2 (resolve_priority (B := additional_builtin) _)))
      with (max_length' := None).
    reflexivity.
  - apply (proj1 (proj2 (proj2
             (resolve_priority (B := additional_builtin) [TestCommandParser]))))
      with (max_length1 := None) (max_length' := None); reflexivity.
  - apply (proj1 (proj2 (proj2 (proj2
             (resolve_priority (B := additional_builtin) [TestCommandParser])))))
      with (max_length1 := None); reflexivity.
  - apply (proj1 (proj2 (proj2 (proj2 (proj2
             (resolve_priority (B := no_builtins) []))))) [TestCommandParser]
             AdditionalCommandParser [])
      with (max_length1 := None); reflexivity.
  - apply (proj1 (resolve_priority (B := additional_builtin) [TestCommandParser])
             "%COMMAND_EXTENSION%" (mk_state 0 "" [])
             (mk_smatch "%COMMAND_EXTENSION%" "COMMAND_EXTENSION" "" "") None);
      [reflexivity | simpl; intros [_ H]; discriminate H | reflexivity | reflexivity].
Defined.

Lemma scalar_leaf_typing_witness :
  StructFormatterBase.providersCallback
    preserving [PlainNumberFormatter 5%Z] tt []
  = NumberValue 5%Z
  /\ StructFormatterBase.providersCallback
       preserving
       [PlainNumberFormatter 5%Z; StreamInfoFormatter "X" "" None] tt []
     = StringValue "5-".
Proof.
  destruct (scalar_leaf_typing (E := externals)
              preserving tt [])
    as (_ & Hnumber & Hmany & _).
  split.
  - exact (Hnumber 5%Z eq_refl).
  - exact (Hmany [PlainNumberFormatter 5%Z; StreamInfoFormatter "X" "" None]
             (le_n 2)).
Defined.

Lemma omit_empty_values_drops_null_witness :
  StructFormatterBase.structFormatListCallback omitting
    (StructFormatterBase.visit omitting tt [])
    [StructFormatterBase.Providers [StreamInfoFormatter "X" "" None];
     StructFormatterBase.Providers [PlainStringFormatter "a"];
     StructFormatterBase.StructFormatMapWrapper
       [("c", StructFormatterBase.Providers [StreamInfoFormatter "Y" "" None])];
     StructFormatterBase.Providers [PlainStringFormatter "b"]]
  = ListValue [StringValue "a"; StringValue "b"]
  /\ StructFormatterBase.structFormatListCallback omitting
       (StructFormatterBase.visit omitting tt [])
       [StructFormatterBase.Providers [StreamInfoFormatter "X" "" None]]
     = ListValue []
  /\ StructFormatterBase.structFormatMapCallback omitting
       (StructFormatterBase.visit omitting tt [])
       [("a", StructFormatterBase.Providers [StreamInfoFormatter "X" "" None]);
        ("b", StructFormatterBase.StructFormatMapWrapper
                [("c", StructFormatterBase.Providers [StreamInfoFormatter "Y" "" None])])]
     = NullValue.
Proof.
  destruct (omit_empty_values_drops_null (E := externals)
              omitting
              (StructFormatterBase.visit omitting tt [])
              eq_refl) as (Hlist & _ & Hmap & _).
  split; [apply Hlist | split; [apply Hlist|]].
  apply (Hmap
           [("a", StructFormatterBase.Providers [StreamInfoFormatter "X" "" None]);
            ("b", StructFormatterBase.StructFormatMapWrapper
                    [("c", StructFormatterBase.Providers
                             [StreamInfoFormatter "Y" "" None])])]).
  constructor; [simpl; intros [H | []]; discriminate H|].
  constructor; [simpl; intros [] | constructor].
Defined.

Lemma escape_at_scan_position_witness :
  (exists st',
     iteration (B := no_builtins) "100%%" [] (mk_state 3 "100" []) = Returns st'
     /\ scanned (B := no_builtins) "100%%" [] st'
     /\ pos st' = 3 + 2
     /\ current_token st' = "100%"
     /\ formatters st' = [])
  /\ parse (B := no_builtins) "%%" [] = Returns [PlainStringFormatter "%"]
  /\ parse (B := no_builtins) "100%%" [] = Returns [PlainStringFormatter "100%"].
Proof.
  apply (escape_at_scan_position (B := no_builtins) "100%%" [] (mk_state 3 "100" []));
    [| simpl; lia | reflexivity | reflexivity].
  apply (scanned_next _ _ (mk_state 2 "10" [])); [| simpl; lia | reflexivity].
  apply (scanned_next _ _ (mk_state 1 "1" [])); [| simpl; lia | reflexivity].
  apply (scanned_next _ _ (mk_state 0 "" [])); [| simpl; lia | reflexivity].
  apply scanned_start.
Defined.

(** C6 as stated fails: in [%A%%B%] the two percent signs at positions 2 and
    3 close one command token and open the next, and no literal comes out;
    in [%A(%%)%] they stay, doubled, in the subcommand. *)
Lemma escape_anywhere_counterexample :
  substr "%A%%B%" 2 = "%%B%"
  /\ parse (B := no_builtins) "%A%%B%" []
     = Returns [StreamInfoFormatter "A" "" None; StreamInfoFormatter "B" "" None]
  /\ substr "%A(%%)%" 3 = "%%)%"
  /\ parse (B := no_builtins) "%A(%%)%" []
     = Returns [StreamInfoFormatter "A" "%%" None].
Proof. split; [|split; [|split]]; reflexivity. Qed.

Lemma parse_plain_text_witness :
  parse (B := no_builtins) "GET /index" []
    = Returns [PlainStringFormatter "GET /index"]
  /\ parse (B := no_builtins) "" [] = Returns [PlainStringFormatter ""].
Proof.
  apply (parse_plain_text (B := no_builtins) "GET /index" []).
  intros pos Hpos.
  do 10 (destruct pos as [|pos]; [discriminate|]).
  simpl in Hpos. lia.
Defined.

Lemma no_valid_command_at_scan_position_witness :
  parse (B := no_builtins) "ab%x" []
  = Throws "Incorrect configuration: ab%x. Couldn't find valid command at position 2".
Proof.
  apply (no_valid_command_at_scan_position (B := no_builtins) "ab%x" []
           (mk_state 2 "ab" [])).
  - apply (scanned_next _ _ (mk_state 1 "a" [])); [| simpl; lia | reflexivity].
    apply (scanned_next _ _ (mk_state 0 "" [])); [| simpl; lia | reflexivity].
    apply scanned_start.
  - simpl; lia.
  - reflexivity.
  - simpl. intros [_ H]. discriminate H.
  - apply regex_search_none. reflexivity.
Defined.

Lemma parse_never_empty_witness :
  [StreamInfoFormatter "A" "" None; StreamInfoFormatter "B" "X" (Some 3%N)] <> []
  /\ parse (B := no_builtins) "" [] = Returns [PlainStringFormatter ""]
  /\ (forall format_mapping preserve_types omit_empty_values self,
        StructFormatterBase.make (B := no_builtins) format_mapping preserve_types
          omit_empty_values [] = Returns self ->
        leaves_nonempty
          (StructFormatterBase.StructFormatMapWrapper
             (StructFormatterBase.struct_output_format_ self)) = true).
Proof.
  apply (parse_never_empty (B := no_builtins) "%A%%B(X):3%" []).
  reflexivity.
Defined.

Lemma all_missing_concatenation_is_kept_witness :
  StructFormatterBase.providersCallback omitting
    [StreamInfoFormatter "X" "" None; StreamInfoFormatter "Y" "" None] tt []
  = StringValue ""
  /\ StructFormatterBase.structFormatMapCallback omitting
       (StructFormatterBase.visit omitting tt [])
       [("k", StructFormatterBase.Providers
                [StreamInfoFormatter "X" "" None; StreamInfoFormatter "Y" "" None])]
     = StructValue [("k", StringValue "")].
Proof.
  destruct (all_missing_concatenation_is_kept (E := externals) (B := no_builtins)
              [] false [] omitting tt []
              [StreamInfoFormatter "X" "" None; StreamInfoFormatter "Y" "" None]
              eq_refl (le_n 2))
    as (Hleaf & _ & Hmap & _).
  - intros provider [<- | [<- | []]]; reflexivity.
  - split; [exact Hleaf|].
    destruct (Hmap [("k", StructFormatterBase.Providers
                           [StreamInfoFormatter "X" "" None;
                            StreamInfoFormatter "Y" "" None])] "k")
      as (fields & Hfields & Hin).
    + constructor; [intros [] | constructor].
    + left; reflexivity.
    + reflexivity.
Defined.

End Instances.

(** * Further properties *)

(** ** The matcher, group by group *)

Section CaptureFacts.

Lemma grammatical_spec (name : string) (subcommand len : option string) :
  grammatical name subcommand len = true ->
  name <> ""
  /\ every is_command_char name = true
  /\ (forall s, subcommand = Some s -> every is_subcommand_char s = true)
  /\ (forall digits, len = Some digits ->
        digits <> "" /\ every is_digit digits = true).
Proof.
  unfold grammatical. intros H.
  apply andb_true_iff in H. destruct H as [H Hlen].
  apply andb_true_iff in H. destruct H as [H Hsub].
  apply andb_true_iff in H. destruct H as [Hname Hclass].
  apply negb_true_iff, String.eqb_neq in Hname.
  split; [exact Hname | split; [exact Hclass | split]].
  - intros s ->. exact Hsub.
  - intros digits ->. apply andb_true_iff in Hlen. destruct Hlen as [Hd Hdigits].
    apply negb_true_iff, String.eqb_neq in Hd. auto.
Qed.

(** On a grammatical command the search succeeds and the groups capture the
    name, the subcommand and the length as written. *)
Lemma regex_search_captures (name : string) (subcommand len : option string)
    (rest : string) :
  grammatical name subcommand len = true ->
  regex_search (token_text name subcommand len ++ rest)
  = Some (mk_smatch (token_text name subcommand len) name (capture subcommand)
            (capture len)).
Proof.
  intros Hg. apply grammatical_spec in Hg.
  destruct Hg as (Hname & Hclass & Hsub & Hlen).
  destruct name as [|n name]; [now elim Hname|].
  unfold token_text. rewrite !append_assoc.
  change ("%" ++ rest)%string with (String "%"%char rest).
  set (after_len := String "%"%char rest).
  set (after_sub := (length_text len ++ after_len)%string).
  assert (Hspan : span is_command_char
                    (String n name ++ subcommand_text subcommand ++ after_sub)
                  = (String n name, (subcommand_text subcommand ++ after_sub)%string)).
  { destruct subcommand as [x|]; [|destruct len as [d|]];
      apply (span_exact is_command_char (String n name)); auto. }
  assert (Hms : match_subcommand (subcommand_text subcommand ++ after_sub)
                = (subcommand_text subcommand, capture subcommand, after_sub)).
  { destruct subcommand as [x|].
    - unfold match_subcommand, subcommand_text.
      cbn [String.append]. rewrite append_assoc. cbn [String.append].
      rewrite (span_exact is_subcommand_char x ")"%char after_sub);
        [reflexivity | now apply Hsub | reflexivity].
    - destruct len as [d|]; reflexivity. }
  assert (Hml : match_length after_sub = (length_text len, capture len, after_len)).
  { unfold after_sub. destruct len as [d|]; [|reflexivity].
    destruct (Hlen d eq_refl) as [Hd Hdigits].
    unfold match_length, length_text, after_len. cbn [String.append].
    rewrite (span_exact is_digit d "%"%char rest); [|exact Hdigits | reflexivity].
    destruct d; [now elim Hd | reflexivity]. }
  unfold regex_search. cbn [String.append].
  change (String n (name ++ subcommand_text subcommand ++ after_sub)%string)
    with (String n name ++ subcommand_text subcommand ++ after_sub)%string.
  rewrite Hspan, Hms, Hml. unfold after_len. cbn [String.append].
  rewrite <- !append_assoc. reflexivity.
Qed.

Lemma match_subcommand_capture (s text captured rest : string) :
  match_subcommand s = (text, captured, rest) ->
  every is_subcommand_char captured = true.
Proof.
  unfold match_subcommand. intros H.
  destruct s as [|c t]; [now inversion H|].
  destruct (Ascii.eqb_spec c "("%char) as [->|Hc].
  - destruct (span is_subcommand_char t) as [sub r] eqn:Hs.
    apply span_spec in Hs. destruct Hs as [_ Hsub].
    destruct r as [|d r']; [now inversion H|].
    destruct (Ascii.eqb_spec d ")"%char) as [->|Hd].
    + now inversion H; subst.
    + assert (Hnone : (text, captured, rest) = ("", "", String "("%char t)).
      { rewrite <- H. destruct d as [[] [] [] [] [] [] [] []]; try reflexivity.
        now elim Hd. }
      now inversion Hnone.
  - assert (Hnone : (text, captured, rest) = ("", "", String c t)).
    { rewrite <- H. destruct c as [[] [] [] [] [] [] [] []]; try reflexivity.
      now elim Hc. }
    now inversion Hnone.
Qed.

Lemma match_length_capture (s text captured rest : string) :
  match_length s = (text, captured, rest) -> every is_digit captured = true.
Proof.
  unfold match_length. intros H.
  destruct s as [|c t]; [now inversion H|].
  destruct (Ascii.eqb_spec c ":"%char) as [->|Hc].
  - destruct (span is_digit t) as [digits r] eqn:Hs.
    apply span_spec in Hs. destruct Hs as [_ Hdigits].
    destruct digits as [|d digits]; now inversion H; subst.
  - assert (Hnone : (text, captured, rest) = ("", "", String c t)).
    { rewrite <- H. destruct c as [[] [] [] [] [] [] [] []]; try reflexivity.
      now elim Hc. }
    now inversion Hnone.
Qed.

(** Whatever the search captures is within the classes of its groups. *)
Lemma regex_search_classes (search_space : string) (m : smatch) :
  regex_search search_space = Some m ->
  str1 m <> ""
  /\ every is_command_char (str1 m) = true
  /\ every is_subcommand_char (str2 m) = true
  /\ every is_digit (str3 m) = true.
Proof.
  unfold regex_search. intros H.
  destruct search_space as [|c t]; [discriminate|].
  destruct (Ascii.eqb_spec c "%"%char) as [->|Hc].
  2:{ destruct c as [[] [] [] [] [] [] [] []]; try discriminate. now elim Hc. }
  destruct (span is_command_char t) as [command r1] eqn:Hs.
  apply span_spec in Hs. destruct Hs as [_ Hcommand].
  destruct command as [|n command]; [discriminate|].
  destruct (match_subcommand r1) as [[sub_text subcommand] r2] eqn:Hsub.
  destruct (match_length r2) as [[len_text len] r3] eqn:Hlen.
  apply match_subcommand_capture in Hsub. apply match_length_capture in Hlen.
  destruct r3 as [|d r3]; [discriminate|].
  destruct (Ascii.eqb_spec d "%"%char) as [->|Hd].
  2:{ destruct d as [[] [] [] [] [] [] [] []]; try discriminate. now elim Hd. }
  inversion H; subst; simpl.
  split; [discriminate | auto].
Qed.

Lemma decimal_value_digits (s : string) (acc : N) :
  every is_digit s = true -> exists v, decimal_value s acc = Some v.
Proof.
  revert acc; induction s as [|c t IH]; intros acc H; simpl in *; [eauto|].
  apply andb_true_iff in H. destruct H as [Hc Ht]. rewrite Hc. now apply IH.
Qed.

(** [SimpleAtoi] on one or more digits: their decimal value when it fits
    64 bits, and a failure otherwise. *)
Lemma SimpleAtoi_digits (digits : string) :
  digits <> "" -> every is_digit digits = true ->
  exists v, decimal_value digits 0%N = Some v
            /\ SimpleAtoi digits = (if (v <=? SIZE_MAX)%N then Some v else None).
Proof.
  intros Hne Hd. destruct (decimal_value_digits digits 0%N Hd) as [v Hv].
  exists v. split; [exact Hv|].
  unfold SimpleAtoi. destruct digits; [now elim Hne|]. now rewrite Hv.
Qed.

Lemma SimpleAtoi_bound (digits : string) (v : N) :
  SimpleAtoi digits = Some v -> (v <= SIZE_MAX)%N.
Proof.
  unfold SimpleAtoi. destruct digits; [discriminate|].
  destruct (decimal_value _ _) as [w|]; [|discriminate].
  destruct (w <=? SIZE_MAX)%N eqn:Hw; [|discriminate].
  intros H; inversion H; subst. now apply N.leb_le.
Qed.

End CaptureFacts.

(** ** The loop of [parse], segment by segment *)

Section SegmentFacts.
Context {E : Externals} {B : BuiltInCommandParsersBase}.
Variable format : string.
Variable command_parsers : list CommandParser.

Import SubstitutionFormatParser.

Local Abbreviation run := (loop (size format) format command_parsers).

Lemma substr_skip (p : nat) (a b : string) :
  substr format p = (a ++ b)%string -> substr format (p + String.length a) = b.
Proof. intros H. now rewrite <- substr_substr, H, substr_append. Qed.

(** Escaped text only grows the pending literal, by the text itself. *)
Lemma run_text (text rest : string) (st : state) :
  substr format (pos st) = (escape text ++ rest)%string ->
  run st = run (mk_state (pos st + String.length (escape text))
                         (current_token st ++ text) (formatters st)).
Proof.
  revert st; induction text as [|c t IH]; intros st H.
  - destruct st as [p tok fs]. simpl. now rewrite Nat.add_0_r, append_empty_r.
  - simpl in H. simpl escape.
    destruct (Ascii.eqb_spec c "%"%char) as [->|Hc].
    + cbn [String.append] in H.
      apply char_at_substr in H. destruct H as (Hlt & Hc & H).
      apply char_at_substr in H. destruct H as (Hlt1 & Hd & H).
      rewrite <- Nat.add_1_r in Hlt1, Hd.
      rewrite (run_step format command_parsers st _ Hlt
                 (iteration_escape format command_parsers st Hc Hlt1 Hd)).
      rewrite (IH (mk_state (S (pos st + 1)) (current_token st ++ "%") (formatters st)));
        cbn [pos current_token formatters].
      * f_equal. f_equal; [simpl; lia | now rewrite append_assoc].
      * now rewrite Nat.add_1_r.
    + cbn [String.append] in H.
      apply char_at_substr in H. destruct H as (Hlt & Hch & H).
      assert (Hne : char_at format (pos st) <> "%"%char) by now rewrite Hch.
      rewrite (run_step format command_parsers st _ Hlt
                 (iteration_literal format command_parsers st Hne)).
      rewrite (IH (mk_state (S (pos st))
                     (current_token st ++ String (char_at format (pos st)) "")
                     (formatters st)));
        cbn [pos current_token formatters].
      * f_equal. f_equal; [simpl; lia | now rewrite Hch, append_assoc].
      * exact H.
Qed.

Lemma command_char_not_percent (c : ascii) :
  is_command_char c = true -> c <> "%"%char.
Proof. intros H ->. discriminate H. Qed.

(** The iteration at a grammatical command. *)
Lemma iteration_at_command (name : string) (subcommand len : option string)
    (rest : string) (st : state) :
  grammatical name subcommand len = true ->
  substr format (pos st) = (token_text name subcommand len ++ rest)%string ->
  pos st < size format
  /\ iteration format command_parsers st
     = (max_length <-
          parse_max_length
            (mk_smatch (token_text name subcommand len) name (capture subcommand)
               (capture len)) ;;
        Returns (mk_state (pos st + String.length (token_text name subcommand len)) ""
                   (flush (current_token st) (formatters st)
                    ++ [resolve command_parsers name (capture subcommand) max_length]))).
Proof.
  intros Hg H. pose proof (regex_search_captures name subcommand len rest Hg) as Hm.
  rewrite <- H in Hm.
  apply grammatical_spec in Hg. destruct Hg as (Hname & Hclass & _ & _).
  destruct name as [|n name]; [now elim Hname|].
  unfold token_text in H. cbn [String.append] in H.
  apply char_at_substr in H. destruct H as (Hlt & Hc & H).
  apply char_at_substr in H. destruct H as (_ & Hn & _).
  simpl in Hclass. apply andb_true_iff in Hclass. destruct Hclass as [Hn0 _].
  split; [exact Hlt|].
  rewrite iteration_command; [| exact Hc |].
  - rewrite Hm. cbn [str0 str1 str2 str3].
    replace (S (pos st + String.length (token_text (String n name) subcommand len) - 1))
      with (pos st + String.length (token_text (String n name) subcommand len));
      [reflexivity|].
    unfold token_text. simpl. lia.
  - intros [_ Hd]. rewrite Nat.add_1_r, Hn in Hd.
    exact (command_char_not_percent n Hn0 Hd).
Qed.

Lemma parse_max_length_accepted (text name subcommand : string) (len : option string) :
  (forall digits, len = Some digits -> digits <> "") ->
  parse_max_length (mk_smatch text name subcommand (capture len))
  = match len with
    | None => Returns None
    | Some digits =>
        match SimpleAtoi digits with
        | Some v => Returns (Some v)
        | None => Throws ("Length must be an integer, given: " ++ digits)
        end
    end.
Proof.
  intros Hne. unfold parse_max_length. cbn [str3]. destruct len as [d|]; simpl.
  - specialize (Hne d eq_refl). destruct d; [now elim Hne | reflexivity].
  - reflexivity.
Qed.

(** An accepted command flushes the pending literal and appends what
    [resolve] returns. *)
Lemma run_command (name : string) (subcommand len : option string)
    (rest : string) (st : state) :
  accepted (Command name subcommand len) = true ->
  substr format (pos st) = (token_text name subcommand len ++ rest)%string ->
  run st
  = run (mk_state (pos st + String.length (token_text name subcommand len)) ""
           (flush (current_token st) (formatters st)
            ++ [resolve command_parsers name (capture subcommand)
                  match len with
                  | Some digits => SimpleAtoi digits
                  | None => None
                  end])).
Proof.
  intros Ha H. simpl in Ha. apply andb_true_iff in Ha. destruct Ha as [Hg Hl].
  destruct (iteration_at_command name subcommand len rest st Hg H) as [Hlt Hstep].
  apply grammatical_spec in Hg. destruct Hg as (_ & _ & _ & Hlen).
  rewrite parse_max_length_accepted in Hstep
    by (intros d Hd; exact (proj1 (Hlen d Hd))).
  apply (run_step format command_parsers st _ Hlt).
  rewrite Hstep. destruct len as [d|]; [|reflexivity].
  destruct (SimpleAtoi d); [reflexivity | discriminate].
Qed.

Lemma flush_app (token : string) (providers : list FormatterProvider) :
  flush token providers = providers ++ flush token [].
Proof. destruct token; simpl; [now rewrite app_nil_r | reflexivity]. Qed.

(** From a state whose remaining text is a sequence of accepted segments,
    the loop ends with the providers of the sequence appended. *)
Lemma run_segments (segments : list segment) (st : state) :
  forallb accepted segments = true ->
  substr format (pos st) = unparse segments ->
  exists st',
    run st = Returns st'
    /\ flush (current_token st') (formatters st')
       = formatters st ++ plan command_parsers segments (current_token st).
Proof.
  revert st; induction segments as [|[text | name subcommand len] rest IH];
    intros st Ha H.
  - exists st. split; [|apply flush_app].
    apply run_done. pose proof (substr_length format (pos st)) as Hl.
    rewrite H in Hl. simpl in Hl. lia.
  - simpl in H, Ha. rewrite (run_text text (unparse rest) st H).
    destruct (IH (mk_state (pos st + String.length (escape text))
                    (current_token st ++ text) (formatters st)) Ha)
      as (st' & Hrun & Hout); [now apply substr_skip|].
    exists st'. split; [exact Hrun | exact Hout].
  - cbn [forallb] in Ha. apply andb_true_iff in Ha. destruct Ha as [Ha Hrest].
    cbn [unparse] in H. rewrite (run_command name subcommand len (unparse rest) st Ha H).
    match goal with
    | |- context [run ?s] =>
        destruct (IH s Hrest) as (st' & Hrun & Hout); [now apply substr_skip|]
    end.
    exists st'. split; [exact Hrun|].
    rewrite Hout. cbn [formatters current_token plan].
    rewrite (flush_app (current_token st) (formatters st)), <- !app_assoc.
    reflexivity.
Qed.

End SegmentFacts.

Section ParseRoundTrip.
Context {E : Externals} {B : BuiltInCommandParsersBase}.

Import SubstitutionFormatParser.

Lemma finish_flush (format : string) (st : state) :
  format <> "" -> finish format st = flush (current_token st) (formatters st).
Proof.
  intros Hne. unfold finish, flush.
  destruct format as [|c t]; [now elim Hne|]. simpl size.
  destruct (current_token st); reflexivity.
Qed.

(** X1: when a sequence of texts and commands is written as a format, with
    the percent signs of the texts doubled, and [parse] returns on it, the
    plan is the sequence again: one plain string provider for each maximal
    run of non-empty text and, for each command, what [resolve] returned
    for its name, subcommand and length; for the empty format, one empty
    plain string provider. *)
Theorem parse_unparse (command_parsers : list CommandParser)
    (segments : list segment) (providers : list FormatterProvider) :
  forallb accepted segments = true ->
  parse (unparse segments) command_parsers = Returns providers ->
  providers
  = match unparse segments with
    | EmptyString => [PlainStringFormatter ""]
    | _ => plan command_parsers segments ""
    end.
Proof.
  intros Ha. unfold parse.
  destruct (run_segments (unparse segments) command_parsers segments
              (mk_state 0 "" []) Ha eq_refl) as (st' & Hrun & Hout).
  rewrite Hrun. cbn [bind]. intros H. inversion H; subst providers; clear H.
  destruct (unparse segments) as [|c t] eqn:Hformat.
  - simpl in Hrun. inversion Hrun; subst. reflexivity.
  - rewrite finish_flush by discriminate. exact Hout.
Qed.

(** X2: every text, percent signs included, written with its percent signs
    doubled parses to the single plain string provider holding that text. *)
Theorem parse_escape (command_parsers : list CommandParser) (text : string) :
  parse (escape text) command_parsers = Returns [PlainStringFormatter text].
Proof.
  unfold parse.
  rewrite (run_text (escape text) command_parsers text "" (mk_state 0 "" []))
    by (simpl; now rewrite append_empty_r).
  rewrite run_done by (cbn [pos]; unfold size; lia).
  cbn [bind]. f_equal. unfold finish. cbn [current_token formatters].
  destruct text as [|c t]; [reflexivity|]. reflexivity.
Qed.

(** A format that is one grammatical command. *)
Lemma parse_single_command (command_parsers : list CommandParser)
    (name : string) (subcommand len : option string) :
  grammatical name subcommand len = true ->
  parse (token_text name subcommand len) command_parsers
  = (max_length <-
       parse_max_length
         (mk_smatch (token_text name subcommand len) name (capture subcommand)
            (capture len)) ;;
     Returns [resolve command_parsers name (capture subcommand) max_length]).
Proof.
  intros Hg. unfold parse.
  destruct (iteration_at_command (token_text name subcommand len) command_parsers
              name subcommand len "" (mk_state 0 "" []) Hg)
    as [Hlt Hstep]; [simpl; now rewrite append_empty_r|].
  rewrite run_unfold by exact Hlt. rewrite Hstep.
  destruct (parse_max_length _) as [max_length|e]; [|reflexivity].
  cbn [bind]. rewrite run_done by (cbn [pos]; unfold size; lia).
  cbn [bind]. rewrite finish_flush; [reflexivity|].
  unfold token_text. discriminate.
Qed.

(** X6: a command written with empty parentheses parses exactly as the
    command written without parentheses: both reach the command parsers
    with the empty subcommand. *)
Theorem empty_subcommand_is_no_subcommand (command_parsers : list CommandParser)
    (name : string) (len : option string) :
  grammatical name None len = true ->
  parse (token_text name (Some "") len) command_parsers
  = parse (token_text name None len) command_parsers.
Proof.
  intros Hg.
  assert (Hg' : grammatical name (Some "") len = true).
  { unfold grammatical in *. simpl in *. exact Hg. }
  rewrite !parse_single_command by assumption.
  reflexivity.
Qed.

(** X3: a command whose length, read in decimal, exceeds the largest
    [size_t] makes [parse] throw, the message quoting the digits. *)
Theorem length_out_of_range (format : string) (command_parsers : list CommandParser)
    (st : state) (name : string) (subcommand : option string)
    (digits rest : string) (v : N) :
  scanned format command_parsers st ->
  grammatical name subcommand (Some digits) = true ->
  substr format (pos st) = (token_text name subcommand (Some digits) ++ rest)%string ->
  decimal_value digits 0%N = Some v ->
  (SIZE_MAX < v)%N ->
  parse format command_parsers
  = Throws ("Length must be an integer, given: " ++ digits).
Proof.
  intros Hsc Hg H Hv Hbig.
  destruct (iteration_at_command format command_parsers name subcommand
              (Some digits) rest st Hg H) as [Hlt Hstep].
  apply grammatical_spec in Hg. destruct Hg as (_ & _ & _ & Hlen).
  destruct (Hlen digits eq_refl) as [Hne Hdigits].
  rewrite parse_max_length_accepted in Hstep
    by (intros d Hd; inversion Hd; subst; exact Hne).
  destruct (SimpleAtoi_digits digits Hne Hdigits) as (w & Hw & Hatoi).
  rewrite Hv in Hw. inversion Hw; subst w.
  apply N.leb_gt in Hbig. rewrite Hbig in Hatoi. rewrite Hatoi in Hstep.
  unfold parse. rewrite (scanned_run format command_parsers st Hsc).
  now rewrite (run_throws format command_parsers st _ Hlt Hstep).
Qed.

End ParseRoundTrip.

Section ParseInvariants.
Context {E : Externals} {B : BuiltInCommandParsersBase}.

Import SubstitutionFormatParser.

Lemma flush_built (command_parsers : list CommandParser) (token : string)
    (providers : list FormatterProvider) :
  Forall (built_by_parse command_parsers) providers ->
  Forall (built_by_parse command_parsers) (flush token providers).
Proof.
  intros H. destruct token as [|c t]; [exact H|]. simpl.
  apply Forall_app. split; [exact H|].
  constructor; [|constructor]. left. eexists. split; [|reflexivity]. discriminate.
Qed.

Lemma iteration_built (format : string) (command_parsers : list CommandParser)
    (st st' : state) :
  iteration format command_parsers st = Returns st' ->
  Forall (built_by_parse command_parsers) (formatters st) ->
  Forall (built_by_parse command_parsers) (formatters st').
Proof.
  intros Hstep Hall. pose proof (iteration_cases format command_parsers st) as Hcase.
  rewrite Hstep in Hcase.
  inversion Hcase as [Hc | Hc Hlt Hd | r Hc Hn Hr]; subst; simpl; try exact Hall.
  destruct (regex_search (substr format (pos st))) as [m|] eqn:Hm; [|discriminate].
  apply regex_search_classes in Hm. destruct Hm as (Hname & Hclass & Hsub & _).
  unfold parse_max_length in Hr.
  assert (Hbuilt : forall max_length,
            (forall v, max_length = Some v -> (v <= SIZE_MAX)%N) ->
            built_by_parse command_parsers
              (resolve command_parsers (str1 m) (str2 m) max_length)).
  { intros max_length Hb. right. exists (str1 m), (str2 m), max_length. auto. }
  destruct (String.length (str3 m) =? 0).
  - cbn [bind] in Hr. inversion Hr; subst; simpl.
    apply Forall_app. split; [now apply flush_built|].
    constructor; [|constructor]. apply Hbuilt. discriminate.
  - destruct (SimpleAtoi (str3 m)) as [v|] eqn:Hv; [|discriminate].
    cbn [bind] in Hr. inversion Hr; subst; simpl.
    apply Forall_app. split; [now apply flush_built|].
    constructor; [|constructor]. apply Hbuilt.
    intros w Hw. inversion Hw; subst. exact (SimpleAtoi_bound _ _ Hv).
Qed.

Lemma loop_built (format : string) (command_parsers : list CommandParser)
    (n : nat) (st st' : state) :
  size format - pos st <= n ->
  loop (size format) format command_parsers st = Returns st' ->
  Forall (built_by_parse command_parsers) (formatters st) ->
  Forall (built_by_parse command_parsers) (formatters st').
Proof.
  revert st; induction n as [|n IH]; intros st Hn Hrun Hall.
  - rewrite run_done in Hrun by lia. now inversion Hrun; subst.
  - destruct (Nat.lt_ge_cases (pos st) (size format)) as [Hlt|Hge];
      [|rewrite run_done in Hrun by exact Hge; now inversion Hrun; subst].
    rewrite run_unfold in Hrun by exact Hlt.
    destruct (iteration format command_parsers st) as [st1|e] eqn:Hstep;
      [|discriminate].
    cbn [bind] in Hrun. apply (IH st1); [| exact Hrun |].
    + apply iteration_advances in Hstep. lia.
    + eapply iteration_built; eassumption.
Qed.

(** X5: in the plan of a non-empty format every provider is either a plain
    string with a non-empty literal or what [resolve] returned for a
    non-empty command name over [A-Z], [0-9] and underscore, a subcommand
    without closing parenthesis and a length that fits [size_t]: command
    parsers are never asked about anything else. *)
Theorem plan_invariant (format : string) (command_parsers : list CommandParser)
    (providers : list FormatterProvider) :
  format <> "" ->
  parse format command_parsers = Returns providers ->
  Forall (built_by_parse command_parsers) providers.
Proof.
  intros Hne. unfold parse. intros H.
  destruct (loop (size format) format command_parsers (mk_state 0 "" []))
    as [st|e] eqn:Hrun; [|discriminate].
  cbn [bind] in H. inversion H; subst; clear H.
  rewrite finish_flush by exact Hne. apply flush_built.
  apply (loop_built format command_parsers (size format) _ _
           ltac:(simpl; lia) Hrun).
  constructor.
Qed.

(** X7: the scan position never passes the end of the format, although a
    command moves it by the length of the match. *)
Theorem scan_within_format (format : string) (command_parsers : list CommandParser)
    (st : state) :
  scanned format command_parsers st -> pos st <= size format.
Proof.
  induction 1 as [|st st' Hsc IH Hlt Hstep]; [simpl; lia|].
  pose proof (iteration_cases format command_parsers st) as Hcase.
  rewrite Hstep in Hcase.
  inversion Hcase as [Hc | Hc Hlt1 Hd | r Hc Hn Hr]; subst; simpl; try lia.
  destruct (regex_search (substr format (pos st))) as [m|] eqn:Hm; [|discriminate].
  pose proof (regex_search_length _ _ Hm) as Hlen.
  apply regex_search_sound in Hm. destruct Hm as [_ [rest Hrest]].
  destruct (parse_max_length m); [|discriminate].
  cbn [bind] in Hr. inversion Hr; subst; simpl.
  pose proof (substr_length format (pos st)) as Hl.
  rewrite Hrest, length_append in Hl. lia.
Qed.

Lemma iteration_congruence (format : string) (parsers1 parsers2 : list CommandParser)
    (st : state) :
  (forall command subcommand max_length,
     resolve parsers1 command subcommand max_length
     = resolve parsers2 command subcommand max_length) ->
  iteration format parsers1 st = iteration format parsers2 st.
Proof.
  intros Hres. unfold iteration.
  destruct (negb _); [reflexivity|]. destruct (_ && _); [reflexivity|].
  destruct (regex_search _) as [m|]; [|reflexivity].
  destruct (parse_max_length m) as [max_length|]; [|reflexivity].
  cbn [bind]. now rewrite Hres.
Qed.

Lemma loop_congruence (format : string) (parsers1 parsers2 : list CommandParser)
    (fuel : nat) (st : state) :
  (forall command subcommand max_length,
     resolve parsers1 command subcommand max_length
     = resolve parsers2 command subcommand max_length) ->
  loop fuel format parsers1 st = loop fuel format parsers2 st.
Proof.
  intros Hres. revert st; induction fuel as [|fuel IH]; intros st; [reflexivity|].
  simpl. destruct (pos st <? size format); [|reflexivity].
  rewrite (iteration_congruence format parsers1 parsers2 st Hres).
  destruct (iteration format parsers2 st) as [st'|e]; [|reflexivity].
  cbn [bind]. apply IH.
Qed.

(** X9: a command parser that declines a command and leaves the length as
    it found it can be taken out of the list without changing what the list
    answers for that command. *)
Theorem declining_parser_is_transparent (before after : list CommandParser)
    (cmd : CommandParser) (command subcommand : string) (max_length : option N) :
  (forall max_length', cmd command subcommand max_length' = (None, max_length')) ->
  try_parsers (before ++ cmd :: after) command subcommand max_length
  = try_parsers (before ++ after) command subcommand max_length.
Proof.
  intros Hdecline. rewrite !try_parsers_app.
  destruct (try_parsers before command subcommand max_length)
    as [[formatter|] max_length']; [reflexivity|].
  simpl. now rewrite Hdecline.
Qed.

End ParseInvariants.

(** ** The flat formatter, further *)

Section FlatExtras.
Context {E : Externals} {B : BuiltInCommandParsersBase}.

(** X10: with empty values omitted, in a context where no command yields a
    value the line is the literal text of the format with every command
    token removed. *)
Theorem omitted_commands_vanish (format : string)
    (command_parsers : list CommandParser) (self : CommonFormatterBaseImpl.t)
    (context : FormatterContext) (stream_info : StreamInfo) :
  CommonFormatterBaseImpl.make format true command_parsers = Returns self ->
  (forall command subcommand max_length,
     formatWithContext
       (SubstitutionFormatParser.resolve command_parsers command subcommand max_length)
       context stream_info = None) ->
  renders "" format
    (CommonFormatterBaseImpl.formatWithContext self context stream_info).
Proof.
  unfold CommonFormatterBaseImpl.make. intros Hmake Hnone.
  destruct (SubstitutionFormatParser.parse format command_parsers)
    as [providers|e] eqn:Hparse; [|discriminate].
  cbn [bind] in Hmake. inversion Hmake; subst; clear Hmake.
  unfold CommonFormatterBaseImpl.formatWithContext.
  cbn [CommonFormatterBaseImpl.empty_value_string_
       CommonFormatterBaseImpl.providers_].
  rewrite fold_left_append. cbn [String.append].
  now apply (parse_renders context stream_info "" format command_parsers).
Qed.

(** X11: whether empty values are omitted makes no difference to the line
    in a context where every provider of the plan yields a value. *)
Theorem omit_is_irrelevant_with_values (format : string)
    (command_parsers : list CommandParser)
    (omitting keeping : CommonFormatterBaseImpl.t)
    (context : FormatterContext) (stream_info : StreamInfo) :
  CommonFormatterBaseImpl.make format true command_parsers = Returns omitting ->
  CommonFormatterBaseImpl.make format false command_parsers = Returns keeping ->
  (forall provider,
     In provider (CommonFormatterBaseImpl.providers_ keeping) ->
     formatWithContext provider context stream_info <> None) ->
  CommonFormatterBaseImpl.formatWithContext omitting context stream_info
  = CommonFormatterBaseImpl.formatWithContext keeping context stream_info.
Proof.
  unfold CommonFormatterBaseImpl.make. intros Ho Hk Hvalues.
  destruct (SubstitutionFormatParser.parse format command_parsers)
    as [providers|e]; [|discriminate].
  cbn [bind] in Ho, Hk. inversion Ho; subst; clear Ho.
  inversion Hk; subst; clear Hk.
  cbn [CommonFormatterBaseImpl.providers_] in Hvalues.
  unfold CommonFormatterBaseImpl.formatWithContext.
  cbn [CommonFormatterBaseImpl.empty_value_string_
       CommonFormatterBaseImpl.providers_].
  rewrite !fold_left_append. f_equal. f_equal.
  apply map_ext_in. intros provider Hin. specialize (Hvalues provider Hin).
  destruct (formatWithContext provider context stream_info);
    [reflexivity | now elim Hvalues].
Qed.

End FlatExtras.

(** ** The test command parsers *)

Section TestParsers.
Import CommandExtension.
Import SubstitutionFormatParser.

#[local] Existing Instance externals.

(** X12: the two test command parsers claim different commands, so the
    order in which they are handed to [parse] changes no plan and no
    error. *)
Theorem test_parsers_commute (B : BuiltInCommandParsersBase) (format : string) :
  parse format [TestCommandParser; AdditionalCommandParser]
  = parse format [AdditionalCommandParser; TestCommandParser].
Proof.
  unfold parse. rewrite (loop_congruence format
                           [TestCommandParser; AdditionalCommandParser]
                           [AdditionalCommandParser; TestCommandParser]);
    [reflexivity|].
  intros command subcommand max_length. unfold resolve.
  destruct (try_parsers commandParsers command subcommand max_length)
    as [[formatter|] max_length1]; [reflexivity|].
  simpl. unfold TestCommandParser, AdditionalCommandParser.
  destruct (String.eqb_spec command "COMMAND_EXTENSION") as [->|Ht];
    [reflexivity|].
  destruct (String.eqb command "ADDITIONAL_EXTENSION"); reflexivity.
Qed.

End TestParsers.

(** ** The structured compiler, further *)

Section CompileExtras.
Context {E : Externals} {B : BuiltInCommandParsersBase}.

Lemma returns_map_fields
    (convert : Value number -> Outcome StructFormatterBase.StructFormatValue)
    (accepts : Value number -> bool) (fields : Struct)
    (output : StructFormatterBase.StructFormatMap) :
  Forall (fun field => returns (convert (snd field)) = accepts (snd field)) fields ->
  returns (StructFormatterBase.map_fields convert fields output)
  = forallb (fun field => accepts (snd field)) fields.
Proof.
  intros H. revert output.
  induction H as [|[key value] rest Hvalue Hrest IH]; intros output; simpl;
    [reflexivity|].
  simpl in Hvalue. rewrite <- Hvalue.
  destruct (convert value) as [c|e]; simpl; [apply IH | reflexivity].
Qed.

Lemma returns_list_values
    (convert : Value number -> Outcome StructFormatterBase.StructFormatValue)
    (accepts : Value number -> bool) (values : list (Value number))
    (output : StructFormatterBase.StructFormatList) :
  Forall (fun value => returns (convert value) = accepts value) values ->
  returns (StructFormatterBase.list_values convert values output)
  = forallb accepts values.
Proof.
  intros H. revert output.
  induction H as [|value rest Hvalue Hrest IH]; intros output; simpl;
    [reflexivity|].
  rewrite <- Hvalue.
  destruct (convert value) as [c|e]; simpl; [apply IH | reflexivity].
Qed.

Lemma returns_convert (commands_ : list CommandParser) (value : Value number) :
  returns (StructFormatterBase.convert commands_ value)
  = compilable commands_ value.
Proof.
  induction value as [ | n | s | b | fields IH | values IH]
    using Value_nested_ind; simpl; try reflexivity.
  - unfold StructFormatterBase.toFormatStringValue.
    destruct (SubstitutionFormatParser.parse s commands_); reflexivity.
  - rewrite <- (returns_map_fields (StructFormatterBase.convert commands_)
                  (compilable commands_) fields [] IH).
    destruct (StructFormatterBase.map_fields _ _ _); reflexivity.
  - rewrite <- (returns_list_values (StructFormatterBase.convert commands_)
                  (compilable commands_) values [] IH).
    destruct (StructFormatterBase.list_values _ _ _); reflexivity.
Qed.

(** X13: a structured format is accepted exactly when every leaf, at any
    depth, is a number or a string that [parse] accepts; a boolean or a null
    anywhere, or a string with a bad command, makes the constructor throw. *)
Theorem struct_format_accepted (format_mapping : Struct)
    (preserve_types omit_empty_values : bool) (commands : list CommandParser) :
  returns (StructFormatterBase.make format_mapping preserve_types
             omit_empty_values commands)
  = forallb (fun field => compilable commands (snd field)) format_mapping.
Proof.
  pose proof (returns_convert commands (StructValue format_mapping)) as H.
  simpl in H. rewrite <- H. unfold StructFormatterBase.make,
    StructFormatterBase.toFormatMapValue.
  destruct (StructFormatterBase.map_fields _ _ _); reflexivity.
Qed.

Lemma list_values_Forall2
    (convert : Value number -> Outcome StructFormatterBase.StructFormatValue)
    (values : list (Value number))
    (output result : StructFormatterBase.StructFormatList) :
  StructFormatterBase.list_values convert values output = Returns result ->
  exists compiled,
    result = output ++ compiled
    /\ Forall2 (fun value c => convert value = Returns c) values compiled.
Proof.
  revert output; induction values as [|value rest IH]; intros output H; simpl in H.
  - inversion H; subst. exists []. split; [now rewrite app_nil_r | constructor].
  - destruct (convert value) as [c|e] eqn:Hc; [|discriminate]. cbn [bind] in H.
    destruct (IH _ H) as (compiled & -> & Hall).
    exists (c :: compiled). split; [now rewrite <- app_assoc|].
    constructor; assumption.
Qed.

(** X14: a list of the format compiles element by element, in order: the
    compiled list has the same length and its element at each index is the
    compiled form of the format's element at that index. *)
Theorem compiled_list_in_order (commands_ : list CommandParser)
    (list_value_format : list (Value number))
    (output : StructFormatterBase.StructFormatList) :
  StructFormatterBase.toFormatListValue commands_ list_value_format
    = Returns output ->
  Forall2 (fun value compiled =>
             StructFormatterBase.convert commands_ value = Returns compiled)
          list_value_format output.
Proof.
  intros H. apply list_values_Forall2 in H.
  destruct H as (compiled & -> & Hall). exact Hall.
Qed.

Lemma emplace_keys {V : Type} (key : string) (value : V) (m : list (string * V))
    (k : string) :
  In k (map fst (emplace key value m)) <-> k = key \/ In k (map fst m).
Proof.
  induction m as [|[k0 v0] rest IH]; simpl.
  - intuition.
  - destruct (String.compare key k0) eqn:Hc; simpl.
    + apply String.compare_eq_iff in Hc. subst. intuition.
    + intuition.
    + rewrite IH. intuition.
Qed.

Lemma emplace_entries {V : Type} (key : string) (value : V) (m : list (string * V))
    (entry : string * V) :
  In entry (emplace key value m) -> entry = (key, value) \/ In entry m.
Proof.
  induction m as [|[k0 v0] rest IH]; simpl.
  - intuition.
  - destruct (String.compare key k0); simpl; intuition.
Qed.

Lemma map_fields_keys
    (convert : Value number -> Outcome StructFormatterBase.StructFormatValue)
    (fields : Struct) (output result : StructFormatterBase.StructFormatMap) :
  StructFormatterBase.map_fields convert fields output = Returns result ->
  (forall key,
     In key (map fst result) <-> In key (map fst fields) \/ In key (map fst output))
  /\ (forall entry,
        In entry result ->
        In entry output
        \/ exists value,
             In (fst entry, value) fields /\ convert value = Returns (snd entry)).
Proof.
  revert output; induction fields as [|[key value] rest IH]; intros output H;
    simpl in H.
  - inversion H; subst. split; [simpl; intuition | auto].
  - destruct (convert value) as [c|e] eqn:Hc; [|discriminate]. cbn [bind] in H.
    destruct (IH _ H) as [Hkeys Hentries]. split.
    + intros k. rewrite Hkeys, emplace_keys. simpl. intuition.
    + intros entry Hin. destruct (Hentries entry Hin) as [Hout | (v & Hv & Hconv)].
      * apply emplace_entries in Hout. destruct Hout as [-> | Hout]; [|now left].
        right. exists value. split; [now left | exact Hc].
      * right. exists v. split; [now right | exact Hconv].
Qed.

(** X15: the compiled map holds exactly the keys of the format, each once
    and in increasing order, and every entry of it is the compiled form of a
    field of the format with that key. *)
Theorem compiled_map_entries (commands_ : list CommandParser)
    (struct_format : Struct) (output : StructFormatterBase.StructFormatMap) :
  StructFormatterBase.toFormatMapValue commands_ struct_format = Returns output ->
  StronglySorted key_lt (map fst output)
  /\ (forall key, In key (map fst output) <-> In key (map fst struct_format))
  /\ (forall key compiled,
        In (key, compiled) output ->
        exists value,
          In (key, value) struct_format
          /\ StructFormatterBase.convert commands_ value = Returns compiled).
Proof.
  intros H. split; [now apply (compiled_keys_sorted commands_ struct_format)|].
  destruct (map_fields_keys _ _ _ _ H) as [Hkeys Hentries]. split.
  - intros key. rewrite Hkeys. simpl. intuition.
  - intros key compiled Hin.
    destruct (Hentries _ Hin) as [[] | Hsrc]. exact Hsrc.
Qed.

End CompileExtras.

(** ** The structured evaluator, further *)

Section EvaluateExtras.
Context {E : Externals} {B : BuiltInCommandParsersBase}.

(** Induction over a compiled format and the formats nested in it. *)
Lemma StructFormatValue_nested_ind
    (P : StructFormatterBase.StructFormatValue -> Prop) :
  (forall providers, P (StructFormatterBase.Providers providers)) ->
  (forall format_map,
     Forall (fun pair => P (snd pair)) format_map ->
     P (StructFormatterBase.StructFormatMapWrapper format_map)) ->
  (forall format_list,
     Forall P format_list ->
     P (StructFormatterBase.StructFormatListWrapper format_list)) ->
  forall value, P value.
Proof.
  intros Hproviders Hmap Hlist.
  fix IH 1. intros [providers | format_map | format_list].
  - apply Hproviders.
  - apply Hmap. induction format_map as [|pair rest IHrest]; constructor.
    + apply IH.
    + exact IHrest.
  - apply Hlist. induction format_list as [|value rest IHrest]; constructor.
    + apply IH.
    + exact IHrest.
Qed.

Lemma set_field_values (P : Value number -> Prop) (key : string)
    (value : Value number) (fields : Struct) :
  P value ->
  Forall (fun field => P (snd field)) fields ->
  Forall (fun field => P (snd field)) (set_field key value fields).
Proof.
  intros Hv Hall. induction Hall as [|[k v] rest Hkv Hrest IH]; simpl.
  - constructor; [exact Hv | constructor].
  - destruct (String.eqb k key); constructor; assumption.
Qed.

Section Folds.
Variable self : StructFormatterBase.t.
Variable visitor : StructFormatterBase.StructFormatValue -> Value number.
Variable P : Value number -> Prop.

Local Abbreviation omit := (StructFormatterBase.omit_empty_values_ self).

(** What holds of every value the map callback keeps holds of every field
    of its output. *)
Lemma map_fold_values (format_map : StructFormatterBase.StructFormatMap)
    (output : Struct) :
  Forall (fun pair =>
            omit && is_null (visitor (snd pair)) = false -> P (visitor (snd pair)))
         format_map ->
  Forall (fun field => P (snd field)) output ->
  Forall (fun field => P (snd field))
    (fold_left
       (fun fields pair =>
          let value := visitor (snd pair) in
          if omit && is_null value then fields
          else set_field (fst pair) value fields)
       format_map output).
Proof.
  intros Hmap. revert output.
  induction Hmap as [|pair rest Hpair Hrest IH]; intros output Hout; simpl;
    [exact Hout|].
  apply IH. destruct (omit && is_null (visitor (snd pair))) eqn:Hk;
    [exact Hout|].
  apply set_field_values; [now apply Hpair | exact Hout].
Qed.

Lemma list_fold_values (format_list : StructFormatterBase.StructFormatList)
    (output : list (Value number)) :
  Forall (fun val => omit && is_null (visitor val) = false -> P (visitor val))
         format_list ->
  Forall P output ->
  Forall P
    (fold_left
       (fun output val =>
          let value := visitor val in
          if omit && is_null value then output else output ++ [value])
       format_list output).
Proof.
  intros Hlist. revert output.
  induction Hlist as [|val rest Hval Hrest IH]; intros output Hout; simpl;
    [exact Hout|].
  apply IH. destruct (omit && is_null (visitor val)) eqn:Hk; [exact Hout|].
  apply Forall_app. split; [exact Hout | constructor; [now apply Hval | constructor]].
Qed.

End Folds.

Lemma providers_string (self : StructFormatterBase.t)
    (providers : list FormatterProvider) (context : FormatterContext)
    (stream_info : StreamInfo) :
  StructFormatterBase.preserve_types_ self = false ->
  StructFormatterBase.providersCallback self providers context stream_info
    = NullValue
  \/ exists s,
       StructFormatterBase.providersCallback self providers context stream_info
       = StringValue s.
Proof.
  intros Hpt. unfold StructFormatterBase.providersCallback.
  destruct providers as [|p [|q rest]]; [right; eauto | | right; eauto].
  rewrite Hpt. destruct (StructFormatterBase.omit_empty_values_ self);
    [|right; eauto].
  destruct (formatWithContext p context stream_info); simpl; [right; eauto | now left].
Qed.

(** X16: without type preservation and without omission of empty values,
    every leaf of the output is a string, a number of the format included,
    and no null marker appears at any depth. *)
Theorem output_of_strings (self : StructFormatterBase.t)
    (context : FormatterContext) (stream_info : StreamInfo)
    (value : StructFormatterBase.StructFormatValue) :
  StructFormatterBase.preserve_types_ self = false ->
  StructFormatterBase.omit_empty_values_ self = false ->
  only_strings (StructFormatterBase.visit self context stream_info value) = true.
Proof.
  intros Hpt Homit.
  induction value as [providers | format_map IH | format_list IH]
    using StructFormatValue_nested_ind.
  - simpl. unfold StructFormatterBase.providersCallback.
    destruct providers as [|p [|q rest]]; [reflexivity | | reflexivity].
    now rewrite Hpt, Homit.
  - simpl. unfold StructFormatterBase.structFormatMapCallback.
    rewrite Homit. cbn [andb only_strings].
    apply forallb_forall. apply Forall_forall.
    pose proof (map_fold_values self
                  (StructFormatterBase.visit self context stream_info)
                  (fun v => only_strings v = true) format_map []) as Hfold.
    rewrite Homit in Hfold. cbn [andb] in Hfold. apply Hfold; [|constructor].
    eapply Forall_impl; [|exact IH]. intros pair Hpair _. exact Hpair.
  - simpl. unfold StructFormatterBase.structFormatListCallback.
    rewrite Homit. cbn [andb only_strings].
    apply forallb_forall. apply Forall_forall.
    pose proof (list_fold_values self
                  (StructFormatterBase.visit self context stream_info)
                  (fun v => only_strings v = true) format_list []) as Hfold.
    rewrite Homit in Hfold. cbn [andb] in Hfold. apply Hfold; [|constructor].
    eapply Forall_impl; [|exact IH]. intros val Hval _. exact Hval.
Qed.

(** X17: with omission of empty values and without type preservation, a
    node evaluates either to the null marker or to a value of strings in
    which, at every depth, no null marker and no struct without fields
    occurs. *)
Theorem output_without_gaps (self : StructFormatterBase.t)
    (context : FormatterContext) (stream_info : StreamInfo)
    (value : StructFormatterBase.StructFormatValue) :
  StructFormatterBase.preserve_types_ self = false ->
  StructFormatterBase.omit_empty_values_ self = true ->
  is_null (StructFormatterBase.visit self context stream_info value) = true
  \/ without_gaps (StructFormatterBase.visit self context stream_info value) = true.
Proof.
  intros Hpt Homit.
  induction value as [providers | format_map IH | format_list IH]
    using StructFormatValue_nested_ind.
  - simpl.
    destruct (providers_string self providers context stream_info Hpt)
      as [-> | [s ->]]; [now left | now right].
  - simpl. unfold StructFormatterBase.structFormatMapCallback.
    rewrite Homit. cbn [andb].
    match goal with
    | |- context [fold_left ?f format_map []] =>
        assert (Hall : Forall (fun field => without_gaps (snd field) = true)
                         (fold_left f format_map []))
    end.
    { pose proof (map_fold_values self
                    (StructFormatterBase.visit self context stream_info)
                    (fun v => without_gaps v = true) format_map []) as Hfold.
      rewrite Homit in Hfold. cbn [andb] in Hfold. apply Hfold; [|constructor].
      eapply Forall_impl; [|exact IH]. intros pair [Hnull | Hok] Hkept;
        [congruence | exact Hok]. }
    match goal with
    | |- context [if ?c then _ else _] => destruct c eqn:Hlen
    end; [now left | right]. simpl. rewrite Hlen. simpl.
    apply forallb_forall. now apply Forall_forall.
  - right. simpl. unfold StructFormatterBase.structFormatListCallback.
    rewrite Homit. cbn [andb without_gaps].
    apply forallb_forall. apply Forall_forall.
    pose proof (list_fold_values self
                  (StructFormatterBase.visit self context stream_info)
                  (fun v => without_gaps v = true) format_list []) as Hfold.
    rewrite Homit in Hfold. cbn [andb] in Hfold. apply Hfold; [|constructor].
    eapply Forall_impl; [|exact IH]. intros val [Hnull | Hok] Hkept;
      [congruence | exact Hok].
Qed.

(** X18: without omission of empty values the output struct has exactly the
    keys of the format, each once: evaluation neither loses nor invents a
    field. *)
Theorem output_keys_are_format_keys (format_mapping : Struct)
    (preserve_types : bool) (commands : list CommandParser)
    (self : StructFormatterBase.t) (context : FormatterContext)
    (stream_info : StreamInfo) :
  StructFormatterBase.make format_mapping preserve_types false commands
    = Returns self ->
  NoDup (map fst (StructFormatterBase.formatWithContext self context stream_info))
  /\ (forall key,
        In key (map fst (StructFormatterBase.formatWithContext self context
                           stream_info))
        <-> In key (map fst format_mapping)).
Proof.
  unfold StructFormatterBase.make. intros H.
  destruct (StructFormatterBase.toFormatMapValue commands format_mapping)
    as [output|e] eqn:Hc; [|discriminate].
  cbn [bind] in H. inversion H; subst; clear H.
  pose proof (compiled_keys_sorted commands format_mapping output Hc) as Hsorted.
  assert (Hkeys : map fst (StructFormatterBase.formatWithContext
                             (StructFormatterBase.mk false preserve_types
                                DefaultUnspecifiedValueStringView output)
                             context stream_info)
                  = map fst output).
  { unfold StructFormatterBase.formatWithContext.
    cbn [StructFormatterBase.struct_output_format_].
    rewrite map_callback by (now apply sorted_keys_NoDup).
    cbn [StructFormatterBase.omit_empty_values_ andb]. cbv zeta.
    cbn [struct_value]. unfold kept. cbn [andb negb].
    rewrite forallb_filter_id by (apply forallb_forall; reflexivity).
    rewrite map_map. reflexivity. }
  rewrite Hkeys. split; [now apply sorted_keys_NoDup|].
  intros key. destruct (map_fields_keys _ _ _ _ Hc) as [Hk _].
  rewrite Hk. simpl. intuition.
Qed.

End EvaluateExtras.

(** ** Accepted formats *)

Section AcceptedFormats.
Context {E : Externals} {B : BuiltInCommandParsersBase}.

Import SubstitutionFormatParser.

Lemma command_token_grammatical (token : string) :
  command_token token ->
  exists name subcommand len,
    token = token_text name subcommand len
    /\ grammatical name subcommand len = true.
Proof.
  intros [name subcommand len Hname Hclass Hsub Hlen].
  exists name, subcommand, len. split; [reflexivity|].
  unfold grammatical. apply String.eqb_neq in Hname. rewrite Hname, Hclass.
  cbn [negb andb].
  assert (Hs : match subcommand with
               | Some s => every is_subcommand_char s
               | None => true
               end = true).
  { destruct subcommand as [x|]; [now apply Hsub | reflexivity]. }
  rewrite Hs. cbn [andb].
  destruct len as [d|]; [|reflexivity].
  destruct (Hlen d eq_refl) as [Hd Hdigits].
  apply String.eqb_neq in Hd. now rewrite Hd, Hdigits.
Qed.

Lemma loop_segments_inv (format : string) (command_parsers : list CommandParser)
    (n : nat) (st st' : state) :
  size format - pos st <= n ->
  loop (size format) format command_parsers st = Returns st' ->
  exists segments,
    forallb accepted segments = true
    /\ substr format (pos st) = unparse segments.
Proof.
  revert st; induction n as [|n IH]; intros st Hn Hrun.
  - exists []. split; [reflexivity|]. apply substr_beyond. lia.
  - destruct (Nat.lt_ge_cases (pos st) (size format)) as [Hlt|Hge];
      [|exists []; split; [reflexivity | now apply substr_beyond]].
    rewrite run_unfold in Hrun by exact Hlt.
    pose proof (iteration_cases format command_parsers st) as Hcase.
    pose proof (iteration_advances format command_parsers st) as Hadv.
    destruct (iteration format command_parsers st) as [st1|e] eqn:Hstep;
      [|discriminate].
    cbn [bind] in Hrun. specialize (Hadv st1 eq_refl).
    destruct (IH st1 ltac:(lia) Hrun) as (segments & Ha & Hrest).
    inversion Hcase as [Hc Heq | Hc Hlt1 Hd Heq | r Hc Hno Hr Heq]; subst;
      cbn [pos] in Hrest.
    + exists (Text (String (char_at format (pos st)) "") :: segments).
      split; [exact Ha|].
      rewrite (substr_char_at format (pos st) Hlt), Hrest. cbn [unparse escape].
      apply Ascii.eqb_neq in Hc. rewrite Hc. reflexivity.
    + exists (Text "%" :: segments). split; [exact Ha|].
      rewrite (substr_char_at format (pos st) Hlt), Hc.
      replace (S (pos st)) with (pos st + 1) by lia.
      rewrite (substr_char_at format (pos st + 1) Hlt1), Hd, Hrest. reflexivity.
    + destruct (regex_search (substr format (pos st))) as [m|] eqn:Hm;
        [|discriminate].
      pose proof (regex_search_length _ _ Hm) as Hlen.
      pose proof (regex_search_sound _ _ Hm) as [Htoken [rest Hsub]].
      destruct (command_token_grammatical _ Htoken)
        as (name & subcommand & len & Htext & Hg).
      pose proof (regex_search_captures name subcommand len rest Hg) as Hcap.
      rewrite <- Htext, <- Hsub, Hm in Hcap. inversion Hcap as [Hmeq].
      destruct (parse_max_length m) as [max_length|] eqn:Hml; [|discriminate].
      cbn [bind] in Hr. inversion Hr; subst st1; clear Hr. cbn [pos] in Hrest.
      exists (Command name subcommand len :: segments). split.
      * cbn [forallb accepted]. rewrite Ha, Hg. cbn [andb].
        destruct len as [d|]; [|reflexivity].
        apply grammatical_spec in Hg. destruct Hg as (_ & _ & _ & Hd).
        destruct (Hd d eq_refl) as [Hne _].
        rewrite Hmeq in Hml. unfold parse_max_length in Hml. cbn [str3 capture] in Hml.
        destruct d as [|c d]; [now elim Hne|]. simpl String.length in Hml.
        cbn [Nat.eqb] in Hml.
        destruct (SimpleAtoi (String c d)); [reflexivity | discriminate].
      * cbn [unparse]. rewrite <- Htext, <- Hrest.
        replace (S (pos st + String.length (str0 m) - 1))
          with (pos st + String.length (str0 m)) by lia.
        rewrite (substr_skip format (pos st) (str0 m) rest Hsub). exact Hsub.
Qed.

(** X19: every format that [parse] accepts is a sequence of escaped texts
    and grammatical commands with lengths within [size_t], written out. *)
Theorem parsed_format_is_segments (format : string)
    (command_parsers : list CommandParser) (providers : list FormatterProvider) :
  parse format command_parsers = Returns providers ->
  exists segments,
    forallb accepted segments = true /\ format = unparse segments.
Proof.
  unfold parse. intros H.
  destruct (loop (size format) format command_parsers (mk_state 0 "" []))
    as [st|e] eqn:Hrun; [|discriminate].
  destruct (loop_segments_inv format command_parsers (size format) _ _
              ltac:(simpl; lia) Hrun) as (segments & Ha & Hsub).
  exists segments. split; [exact Ha | exact Hsub].
Qed.

End AcceptedFormats.

(** ** The further properties at concrete inputs *)

Section FurtherInstances.
Import CommandExtension.
Import SubstitutionFormatParser.

#[local] Existing Instance externals.

Lemma parse_unparse_witness :
  [PlainStringFormatter "50% of ";
   StreamInfoFormatter "REQ" "X" (Some 10%N);
   StreamInfoFormatter "A" "" None;
   PlainStringFormatter " done"]
  = plan (B := no_builtins) []
      [Text "50% "; Text "of "; Command "REQ" (Some "X") (Some "10");
       Text ""; Command "A" None None; Text " done"] "".
Proof.
  exact (parse_unparse (B := no_builtins) []
           [Text "50% "; Text "of "; Command "REQ" (Some "X") (Some "10");
            Text ""; Command "A" None None; Text " done"]
           [PlainStringFormatter "50% of ";
            StreamInfoFormatter "REQ" "X" (Some 10%N);
            StreamInfoFormatter "A" "" None;
            PlainStringFormatter " done"]
           eq_refl eq_refl).
Defined.

Lemma length_out_of_range_witness :
  parse (B := no_builtins) "a%A:18446744073709551616%" []
  = Throws "Length must be an integer, given: 18446744073709551616".
Proof.
  apply (length_out_of_range (B := no_builtins) "a%A:18446744073709551616%" []
           (mk_state 1 "a" []) "A" None "18446744073709551616" ""
           18446744073709551616%N).
  - apply (scanned_next _ _ (mk_state 0 "" [])); [| simpl; lia | reflexivity].
    apply scanned_start.
  - reflexivity.
  - reflexivity.
  - reflexivity.
  - reflexivity.
Defined.

Lemma plan_invariant_witness :
  Forall (built_by_parse (B := no_builtins) [])
    [PlainStringFormatter "a"; StreamInfoFormatter "A" "b" (Some 7%N)].
Proof.
  apply (plan_invariant (B := no_builtins) "a%A(b):7%" []);
    [discriminate | reflexivity].
Defined.

Lemma empty_subcommand_is_no_subcommand_witness :
  parse (B := no_builtins) "%START_TIME():3%" []
  = parse (B := no_builtins) "%START_TIME:3%" [].
Proof.
  exact (empty_subcommand_is_no_subcommand (B := no_builtins) [] "START_TIME"
           (Some "3") eq_refl).
Defined.

Lemma scan_within_format_witness : 3 <= size "%A%".
Proof.
  apply (scan_within_format (B := no_builtins) "%A%" []
           (mk_state 3 "" [StreamInfoFormatter "A" "" None])).
  apply (scanned_next _ _ (mk_state 0 "" [])); [| simpl; lia | reflexivity].
  apply scanned_start.
Defined.

Lemma declining_parser_is_transparent_witness :
  try_parsers [AdditionalCommandParser; TestCommandParser] "COMMAND_EXTENSION" "" None
  = try_parsers [TestCommandParser] "COMMAND_EXTENSION" "" None.
Proof.
  apply (declining_parser_is_transparent [] [TestCommandParser]
           AdditionalCommandParser "COMMAND_EXTENSION" "" None).
  intros max_length'. reflexivity.
Defined.

Lemma omitted_commands_vanish_witness :
  renders "" "GET %REQ(X):10% 100%%" "GET  100%".
Proof.
  exact (omitted_commands_vanish (B := no_builtins) "GET %REQ(X):10% 100%%" []
           (CommonFormatterBaseImpl.mk ""
              [PlainStringFormatter "GET ";
               StreamInfoFormatter "REQ" "X" (Some 10%N);
               PlainStringFormatter " 100%"])
           tt [] eq_refl (fun _ _ _ => eq_refl)).
Defined.

Lemma omit_is_irrelevant_with_values_witness :
  CommonFormatterBaseImpl.formatWithContext (E := externals)
    (CommonFormatterBaseImpl.mk ""
       [PlainStringFormatter "a"; ExtensionFormatter TestFormatter]) tt []
  = CommonFormatterBaseImpl.formatWithContext
      (CommonFormatterBaseImpl.mk "-"
         [PlainStringFormatter "a"; ExtensionFormatter TestFormatter]) tt [].
Proof.
  apply (omit_is_irrelevant_with_values (B := no_builtins) "a%COMMAND_EXTENSION%"
           [TestCommandParser]); [reflexivity | reflexivity |].
  intros provider [<- | [<- | []]]; discriminate.
Defined.

Lemma compiled_list_in_order_witness :
  Forall2 (fun value compiled =>
             StructFormatterBase.convert (B := no_builtins) [] value
             = Returns compiled)
    [StringValue "a"; NumberValue 1%Z]
    [StructFormatterBase.Providers [PlainStringFormatter "a"];
     StructFormatterBase.Providers [PlainNumberFormatter 1%Z]].
Proof.
  apply (compiled_list_in_order (B := no_builtins) []). reflexivity.
Defined.

Lemma compiled_map_entries_witness :
  StronglySorted key_lt ["a"; "b"]
  /\ (forall key, In key ["a"; "b"] <-> In key ["b"; "a"])
  /\ (forall key compiled,
        In (key, compiled)
          [("a", StructFormatterBase.Providers [PlainNumberFormatter 1%Z]);
           ("b", StructFormatterBase.Providers [PlainStringFormatter "x"])] ->
        exists value,
          In (key, value) [("b", StringValue "x"); ("a", NumberValue 1%Z)]
          /\ StructFormatterBase.convert (B := no_builtins) [] value
             = Returns compiled).
Proof.
  exact (compiled_map_entries (B := no_builtins) []
           [("b", StringValue "x"); ("a", NumberValue 1%Z)]
           [("a", StructFormatterBase.Providers [PlainNumberFormatter 1%Z]);
            ("b", StructFormatterBase.Providers [PlainStringFormatter "x"])]
           eq_refl).
Defined.

Lemma output_of_strings_witness :
  only_strings
    (StructFormatterBase.visit (StructFormatterBase.mk false false "-" []) tt []
       (StructFormatterBase.StructFormatMapWrapper
          [("n", StructFormatterBase.Providers [PlainNumberFormatter 5%Z]);
           ("x", StructFormatterBase.StructFormatListWrapper
                   [StructFormatterBase.Providers [StreamInfoFormatter "X" "" None]])]))
  = true.
Proof.
  apply (output_of_strings (E := externals)); reflexivity.
Defined.

Lemma output_without_gaps_witness :
  is_null
    (StructFormatterBase.visit omitting tt []
       (StructFormatterBase.StructFormatMapWrapper
          [("x", StructFormatterBase.Providers [StreamInfoFormatter "X" "" None])]))
  = true
  \/ without_gaps
       (StructFormatterBase.visit omitting tt []
          (StructFormatterBase.StructFormatMapWrapper
             [("x", StructFormatterBase.Providers [StreamInfoFormatter "X" "" None])]))
     = true.
Proof.
  apply (output_without_gaps (E := externals)); reflexivity.
Defined.

Lemma output_keys_are_format_keys_witness :
  NoDup ["a"; "b"]
  /\ (forall key, In key ["a"; "b"] <-> In key ["b"; "a"]).
Proof.
  exact (output_keys_are_format_keys (B := no_builtins)
           [("b", StringValue "%X%"); ("a", NumberValue 1%Z)] true []
           (StructFormatterBase.mk false true "-"
              [("a", StructFormatterBase.Providers [PlainNumberFormatter 1%Z]);
               ("b", StructFormatterBase.Providers [StreamInfoFormatter "X" "" None])])
           tt [] eq_refl).
Defined.

Lemma parsed_format_is_segments_witness :
  exists segments,
    forallb accepted segments = true
    /\ "100%% %REQ(:path):5%" = unparse segments.
Proof.
  exact (parsed_format_is_segments (B := no_builtins) "100%% %REQ(:path):5%" []
           [PlainStringFormatter "100% "; StreamInfoFormatter "REQ" ":path" (Some 5%N)]
           eq_refl).
Defined.

End FurtherInstances.
